(** * onnx/defs/data_type_utils.cc: type strings, string ranges and the type interner

    A shallow embedding of [onnx::Utils] as found in
    [onnx/defs/data_type_utils.cc]: the [StringRange] slicing class, the
    [TypesWrapper] registry of element type names, the
    [DataTypeUtils::FromString] / [ToString] codec and the
    [DataTypeUtils::ToType] interner, followed by the properties the
    specification states about them.

    Conventions of the embedding.
    - A [const char*] is a buffer (a [list ascii]) together with an offset
      into it; [size_t] values are natural numbers.  Every subtraction of the
      source is either guarded by a comparison or, for [end_ - start_],
      covered by what the strips preserve ([narrows] below), so no unsigned
      wrap-around is ever taken.
    - A [std::string] is a [string].
    - A member function that mutates [this] and returns [bool] becomes a
      function from the range to a pair of the flag and the new range.
    - [assert(c)] is embedded as it behaves when [NDEBUG] is not defined: a
      false condition stops the call.  The stopped call is reported as a value
      [Err e], where [e] is the name the specification gives to that
      assertion. *)

From Stdlib Require Import Ascii String ZArith Lia.
From stdpp Require Import base option list gmap strings relations.

(** ** Characters *)

(** [isspace] of <cctype> in the "C" locale: space, and the five control
    characters from horizontal tab (9) to carriage return (13); no character
    above 127 is one. *)
Definition isspace (c : ascii) : bool :=
  let n := nat_of_ascii c in
  (n =? 32) || ((9 <=? n) && (n <=? 13)).

(** [strlen]: the number of characters before the first NUL.  A literal has no
    NUL inside, so its terminator is the end of the list. *)
Fixpoint strlen (p : list ascii) : nat :=
  match p with
  | [] => 0
  | c :: p' => if Ascii.eqb c zero then 0 else S (strlen p')
  end.

(** ** StringRange *)

Module StringRange.

(** [buf] is the external storage the four members point into; [data_],
    [start_] and [end_] are offsets into it. *)
Record t := mk {
  buf : list ascii;
  data_ : nat;
  size_ : nat;
  start_ : nat;
  end_ : nat
}.

Definition Data (r : t) : list ascii * nat := (buf r, data_ r).
Definition Size (r : t) : nat := size_ r.
Definition Empty (r : t) : bool := size_ r =? 0.

(** [operator[]]: [data_[idx]]; reading outside the storage has no defined
    result in the source and is [None] here. *)
Definition index (r : t) (idx : nat) : option ascii := buf r !! (data_ r + idx).

(** The characters of the valid range, [std::string(s.Data(), s.Size())]
    before it is packed into a string. *)
Definition chars (r : t) : list ascii := take (size_ r) (drop (data_ r) (buf r)).

Definition to_string (r : t) : string := string_of_list_ascii (chars r).

(** [memcmp(p, q, n) == 0] on two (buffer, offset) pointers. *)
Definition memcmp_eq (p q : list ascii * nat) (n : nat) : bool :=
  bool_decide (take n (drop (snd p) (fst p)) = take n (drop (snd q) (fst q))).

Definition StartsWith (r str : t) : bool :=
  (size_ str <=? size_ r) && memcmp_eq (Data r) (Data str) (size_ str).

Definition EndsWith (r str : t) : bool :=
  (size_ str <=? size_ r) &&
  memcmp_eq (buf r, data_ r + (size_ r - size_ str)) (Data str) (size_ str).

(** [LStrip(size_t)] *)
Definition LStrip_size (size : nat) (r : t) : bool * t :=
  if size <=? size_ r then
    (true, {| buf := buf r; data_ := data_ r + size; size_ := size_ r - size;
              start_ := start_ r; end_ := end_ r + size |})
  else (false, r).

(** The loop of [LStrip()]: [ptr] walks forward while [count < size_] and
    [isspace( *ptr )]; [rem] is [size_ - count].  The result is the final
    [count]. *)
Fixpoint LStrip_loop (b : list ascii) (ptr rem : nat) : nat :=
  match rem with
  | 0 => 0
  | S rem' =>
      match b !! ptr with
      | Some c => if isspace c then S (LStrip_loop b (S ptr) rem') else 0
      | None => 0
      end
  end.

(** [LStrip()] *)
Definition LStrip (r : t) : bool * t :=
  let count := LStrip_loop (buf r) (data_ r) (size_ r) in
  if 0 <? count then LStrip_size count r else (false, r).

(** [LStrip(StringRange)] *)
Definition LStrip_range (str r : t) : bool * t :=
  if StartsWith r str then LStrip_size (size_ str) r else (false, r).

(** [RStrip(size_t)] *)
Definition RStrip_size (size : nat) (r : t) : bool * t :=
  if size <=? size_ r then
    (true, {| buf := buf r; data_ := data_ r; size_ := size_ r - size;
              start_ := start_ r; end_ := end_ r |})
  else (false, r).

(** The loop of [RStrip()]: [ptr] starts at [data_ + size_ - 1] and walks
    backward; [rem] is [size_ - count], so [ptr] is [data + rem - 1]. *)
Fixpoint RStrip_loop (b : list ascii) (data rem : nat) : nat :=
  match rem with
  | 0 => 0
  | S rem' =>
      match b !! (data + rem') with
      | Some c => if isspace c then S (RStrip_loop b data rem') else 0
      | None => 0
      end
  end.

(** [RStrip()] *)
Definition RStrip (r : t) : bool * t :=
  let count := RStrip_loop (buf r) (data_ r) (size_ r) in
  if 0 <? count then RStrip_size count r else (false, r).

(** [RStrip(StringRange)] *)
Definition RStrip_range (str r : t) : bool * t :=
  if EndsWith r str then RStrip_size (size_ str) r else (false, r).

Definition LAndRStrip (r : t) : bool * t :=
  let '(l, r1) := LStrip r in
  let '(r', r2) := RStrip r1 in
  (l || r', r2).

(** The three constructors that take data; each ends with [LAndRStrip()]. *)
Definition of_data_size (p : list ascii * nat) (size : nat) : t :=
  snd (LAndRStrip {| buf := fst p; data_ := snd p; size_ := size;
                     start_ := snd p; end_ := snd p |}).

Definition of_std_string (s : string) : t :=
  of_data_size (list_ascii_of_string s, 0) (String.length s).

Definition of_cstr (s : string) : t :=
  of_data_size (list_ascii_of_string s, 0) (strlen (list_ascii_of_string s)).

(** The default constructor and [Reset()]: the empty literal. *)
Definition empty : t :=
  {| buf := []; data_ := 0; size_ := 0; start_ := 0; end_ := 0 |}.

Definition Reset (p : list ascii * nat) (size : nat) : t :=
  {| buf := fst p; data_ := snd p; size_ := size;
     start_ := snd p; end_ := snd p |}.

Definition ParensWhitespaceStrip (r : t) : t :=
  let r := snd (LStrip r) in
  let r := snd (LStrip_range (of_cstr "(") r) in
  let r := snd (LAndRStrip r) in
  let r := snd (RStrip_range (of_cstr ")") r) in
  snd (RStrip r).

(** [Find]: [idx] runs from 0; [None] stands for [std::string::npos]. *)
Fixpoint Find_loop (r : t) (ch : ascii) (idx rem : nat) : option nat :=
  match rem with
  | 0 => None
  | S rem' =>
      if bool_decide (index r idx = Some ch) then Some idx
      else Find_loop r ch (S idx) rem'
  end.

Definition Find (r : t) (ch : ascii) : option nat := Find_loop r ch 0 (size_ r).

Definition RestartCapture (r : t) : t :=
  {| buf := buf r; data_ := data_ r; size_ := size_ r;
     start_ := data_ r; end_ := data_ r |}.

Definition GetCaptured (r : t) : t :=
  of_data_size (buf r, start_ r) (end_ r - start_ r).

End StringRange.

(** ** Results of calls that can stop at an assertion *)

(** One name per assertion of the file, as the specification's error taxonomy
    names them: [FromDataTypeString] (line 178), the [default] branch of
    [ToString] (line 135), [ToDataTypeString] (line 144) and [ToTypeProto]
    (line 112).  [EndIterator] marks the one place where the source would read
    through [end()] with no assertion before it (line 100). *)
Inductive error :=
  | InvalidTypeString
  | UnsupportedTypeDescriptor
  | UnknownElementCode
  | ForeignHandle
  | EndIterator.

Inductive result (A : Type) :=
  | Ok (a : A)
  | Err (e : error).
Arguments Ok {A} a.
Arguments Err {A} e.

Definition bind {A B : Type} (x : result A) (f : A -> result B) : result B :=
  match x with
  | Ok a => f a
  | Err e => Err e
  end.

Notation "'let*' x ':=' c 'in' k" := (bind c (fun x => k))
  (at level 10, x pattern, c at level 100, k at level 200).

Definition assert (c : bool) (e : error) : result unit :=
  if c then Ok tt else Err e.

Global Instance error_eq_dec : EqDecision error.
Proof. solve_decision. Defined.

Global Instance result_eq_dec {A} `{EqDecision A} : EqDecision (result A).
Proof. solve_decision. Defined.

(** ** The messages of onnx.proto that the file reads and writes *)

(** Modelled from the spec: the enumeration [TensorProto::DataType] is declared
    in onnx.proto, which is not part of the sources at hand.  The specification
    describes it as an integer-backed enumeration whose codes are in bijection
    with the canonical names; the numbers are those of onnx.proto. *)
Definition TensorProto_DataType_UNDEFINED : Z := 0.
Definition TensorProto_DataType_FLOAT : Z := 1.
Definition TensorProto_DataType_UINT8 : Z := 2.
Definition TensorProto_DataType_INT8 : Z := 3.
Definition TensorProto_DataType_UINT16 : Z := 4.
Definition TensorProto_DataType_INT16 : Z := 5.
Definition TensorProto_DataType_INT32 : Z := 6.
Definition TensorProto_DataType_INT64 : Z := 7.
Definition TensorProto_DataType_STRING : Z := 8.
Definition TensorProto_DataType_BOOL : Z := 9.
Definition TensorProto_DataType_FLOAT16 : Z := 10.
Definition TensorProto_DataType_DOUBLE : Z := 11.
Definition TensorProto_DataType_UINT32 : Z := 12.
Definition TensorProto_DataType_UINT64 : Z := 13.
Definition TensorProto_DataType_COMPLEX64 : Z := 14.
Definition TensorProto_DataType_COMPLEX128 : Z := 15.

(** Modelled from the spec: [TypeProto] and its tensor alternative are declared
    in onnx.proto.  The specification gives a tensor descriptor an element code
    and an optional ordered sequence of dimensions; a dimension is a number or
    a symbolic name. *)
Inductive Dimension :=
  | dim_value (v : Z)
  | dim_param (p : string).

Record TensorShapeProto := { dim : list Dimension }.

Definition dim_size (s : TensorShapeProto) : nat := length (dim s).

Record TypeProto_Tensor := {
  elem_type : Z;
  shape : option TensorShapeProto
}.

Definition has_shape (t : TypeProto_Tensor) : bool :=
  match shape t with Some _ => true | None => false end.

(** The getter [shape()]: the stored shape, or the default instance, which
    has no dimension. *)
Definition shape_or_default (t : TypeProto_Tensor) : TensorShapeProto :=
  default {| dim := [] |} (shape t).

(** [value_case()]: nothing set (the state after [Clear()]) or a tensor type;
    [ToString] sends every case but the tensor one to its [default] branch. *)
Inductive TypeProto :=
  | VALUE_NOT_SET
  | kTensorType (t : TypeProto_Tensor).

Global Instance Dimension_eq_dec : EqDecision Dimension.
Proof. solve_decision. Defined.

Global Instance TensorShapeProto_eq_dec : EqDecision TensorShapeProto.
Proof. solve_decision. Defined.

Global Instance TypeProto_Tensor_eq_dec : EqDecision TypeProto_Tensor.
Proof. solve_decision. Defined.

Global Instance TypeProto_eq_dec : EqDecision TypeProto.
Proof. solve_decision. Defined.

(** ** TypesWrapper *)

Module TypesWrapper.

Record t := mk {
  type_str_to_tensor_data_type_ : gmap string Z;
  tensor_data_type_to_type_str_ : gmap Z string;
  allowed_data_types_ : gset string
}.

(** The fifteen assignments of the constructor, first to last. *)
Definition assignments : list (string * Z) :=
  [ ("float", TensorProto_DataType_FLOAT);
    ("float16", TensorProto_DataType_FLOAT16);
    ("double", TensorProto_DataType_DOUBLE);
    ("int8", TensorProto_DataType_INT8);
    ("int16", TensorProto_DataType_INT16);
    ("int32", TensorProto_DataType_INT32);
    ("int64", TensorProto_DataType_INT64);
    ("uint8", TensorProto_DataType_UINT8);
    ("uint16", TensorProto_DataType_UINT16);
    ("uint32", TensorProto_DataType_UINT32);
    ("uint64", TensorProto_DataType_UINT64);
    ("complext64", TensorProto_DataType_COMPLEX64);
    ("complext128", TensorProto_DataType_COMPLEX128);
    ("string", TensorProto_DataType_STRING);
    ("bool", TensorProto_DataType_BOOL) ].

(** The body of the range-for loop, for one pair of the first table. *)
Definition loop_body (w : t) (str_type_pair : string * Z) : t :=
  {| type_str_to_tensor_data_type_ := type_str_to_tensor_data_type_ w;
     tensor_data_type_to_type_str_ :=
       <[str_type_pair.2 := str_type_pair.1]> (tensor_data_type_to_type_str_ w);
     allowed_data_types_ := {[ str_type_pair.1 ]} ∪ allowed_data_types_ w |}.

(** The constructor, with the order in which the loop visits the first table
    left open: an [unordered_map] promises none. *)
Definition construct_in_order (order : list (string * Z)) : t :=
  let m := foldl (fun m p => <[p.1 := p.2]> m) ∅ assignments in
  foldl loop_body
        {| type_str_to_tensor_data_type_ := m;
           tensor_data_type_to_type_str_ := ∅;
           allowed_data_types_ := ∅ |}
        order.

(** [TypesWrapper::TypesWrapper()] *)
Definition construct : t :=
  construct_in_order
    (map_to_list (foldl (fun m p => <[p.1 := p.2]> m) ∅ assignments)).

(** [GetTypesWrapper()]: the function-local static, built on first use and
    never written afterwards (see [index_valid] below). *)
Definition GetTypesWrapper : t := construct.

Definition GetAllowedDataTypes (w : t) : gset string := allowed_data_types_ w.
Definition TypeStrToTensorDataType (w : t) : gmap string Z :=
  type_str_to_tensor_data_type_ w.
Definition TensorDataTypeToTypeStr (w : t) : gmap Z string :=
  tensor_data_type_to_type_str_ w.

End TypesWrapper.

(** [std::unordered_map::operator[]]: the mapped value, value-initialised and
    inserted when the key is new. *)
Definition map_index (m : gmap string Z) (k : string) : Z * gmap string Z :=
  match m !! k with
  | Some v => (v, m)
  | None => (0%Z, <[k := 0%Z]> m)
  end.

(** ** DataTypeUtils: the codec *)

Definition IsValidDataTypeString (type_str : string) : bool :=
  let t := TypesWrapper.GetTypesWrapper in
  let allowedSet := TypesWrapper.GetAllowedDataTypes t in
  bool_decide (type_str ∈ allowedSet).

Definition FromDataTypeString (type_str : string) : result Z :=
  let* _ := assert (IsValidDataTypeString type_str) InvalidTypeString in
  let t := TypesWrapper.GetTypesWrapper in
  Ok (map_index (TypesWrapper.TypeStrToTensorDataType t) type_str).1.

Definition ToDataTypeString (tensor_data_type : Z) : result string :=
  let t := TypesWrapper.GetTypesWrapper in
  let iter := TypesWrapper.TensorDataTypeToTypeStr t !! tensor_data_type in
  let* _ := assert (bool_decide (is_Some iter)) UnknownElementCode in
  match iter with
  | Some second => Ok second
  | None => Err UnknownElementCode
  end.

Definition ToString (type_proto : TypeProto) (left right : string) : result string :=
  match type_proto with
  | kTensorType tensor_type =>
      if has_shape tensor_type &&
         (dim_size (shape_or_default tensor_type) =? 0)
      then
        (* Scalar case. *)
        let* name := ToDataTypeString (elem_type tensor_type) in
        Ok (left +:+ name +:+ right)
      else
        let* name := ToDataTypeString (elem_type tensor_type) in
        Ok (left +:+ "tensor(" +:+ name +:+ ")" +:+ right)
  | _ => Err UnsupportedTypeDescriptor
  end.

Definition FromString (type_str : string) : result TypeProto :=
  let s := StringRange.of_std_string type_str in
  let '(stripped, s) := StringRange.LStrip_range (StringRange.of_cstr "tensor") s in
  if stripped then
    let s := StringRange.ParensWhitespaceStrip s in
    let* e := FromDataTypeString (StringRange.to_string s) in
    Ok (kTensorType {| elem_type := e; shape := None |})
  else
    (* Scalar *)
    let* e := FromDataTypeString (StringRange.to_string s) in
    Ok (kTensorType {| elem_type := e; shape := Some {| dim := [] |} |}).

(** ** DataTypeUtils: the interner *)

(** The function-local static [std::unordered_map<std::string, TypeProto>].
    An [unordered_map] keeps every element in a node of its own that is never
    moved, and this file never erases one: the list holds the nodes in the
    order they were allocated, and the position of a node stands for its
    address. *)
Abbreviation TypeStrToProtoMap := (list (string * TypeProto)).

(** [DataType] is [const std::string*]: here always the address of the key of
    a node of the table. *)
Definition DataType := nat.

(** [find]: the node whose key is [typeStr]; [None] is [end()]. *)
Fixpoint map_find (typeStr : string) (m : TypeStrToProtoMap) : option nat :=
  match m with
  | [] => None
  | node :: m' =>
      if bool_decide (node.1 = typeStr) then Some 0
      else S <$> map_find typeStr m'
  end.

(** [m[typeStr] = type_proto]: assign in the node of the key, allocating the
    node first when the key is new. *)
Definition map_assign (typeStr : string) (type_proto : TypeProto)
    (m : TypeStrToProtoMap) : TypeStrToProtoMap :=
  match map_find typeStr m with
  | Some i => <[i := (typeStr, type_proto)]> m
  | None => m ++ [(typeStr, type_proto)]
  end.

(** [ToType(const TypeProto&)], the table passed in and out.  The lock guard
    is taken after [ToString] and covers the rest of the body. *)
Definition ToType (type_proto : TypeProto) (m : TypeStrToProtoMap)
    : result (DataType * TypeStrToProtoMap) :=
  let* typeStr := ToString type_proto "" "" in
  let m :=
    if bool_decide (map_find typeStr m = None)
    then map_assign typeStr type_proto m
    else m in
  match map_find typeStr m with
  | Some node => Ok (node, m)
  | None => Err EndIterator
  end.

(** [ToType(const std::string&)] *)
Definition ToType_str (type_str : string) (m : TypeStrToProtoMap)
    : result (DataType * TypeStrToProtoMap) :=
  let* type := FromString type_str in
  ToType type m.

(** [ToTypeProto]: [*data_type] is the key stored at that address. *)
Definition ToTypeProto (data_type : DataType) (m : TypeStrToProtoMap)
    : result TypeProto :=
  match m !! data_type with
  | Some node =>
      let it := map_find node.1 m in
      let* _ := assert (bool_decide (is_Some it)) ForeignHandle in
      match it ≫= (m !!.) with
      | Some found => Ok found.2
      | None => Err ForeignHandle
      end
  | None => Err ForeignHandle
  end.

(** ** Threads that call the interner *)

(** The interleavings of [n] threads that each run
    [ToType(const std::string&)]: a step is one statement of one thread.  The
    mutex is the flag [lock]; constructing the [std::lock_guard] waits for it
    to be free and sets it, returning from [ToType] clears it. *)
Module Concurrent.

(** Where a thread that runs [ToType(const std::string&)] stands:
    - [Called]: at line 104, nothing done yet;
    - [Waiting]: [FromString] and [ToString] have run (lines 105 and 95), the
      guard of line 96 is not yet constructed;
    - [Locked]: inside the guard, before the [find] of line 97;
    - [Missing]: the [find] returned [end()], line 98 is next;
    - [Present]: line 100 is next;
    - [Returned]: the call has returned the handle, the guard is destroyed;
    - [Stopped]: the call stopped at an assertion. *)
Inductive pc :=
  | Called (type_str : string)
  | Waiting (typeStr : string) (type_proto : TypeProto)
  | Locked (typeStr : string) (type_proto : TypeProto)
  | Missing (typeStr : string) (type_proto : TypeProto)
  | Present (typeStr : string)
  | Returned (h : DataType)
  | Stopped (e : error).

Record state := mk {
  lock : bool;
  table : TypeStrToProtoMap;
  threads : list pc
}.

(** The thread is between the construction of the guard and its return. *)
Definition in_guard (p : pc) : bool :=
  match p with
  | Locked _ _ | Missing _ _ | Present _ => true
  | _ => false
  end.

(** The next statement of a thread, given the lock and the table; [None]
    when the thread waits for the lock or has finished. *)
Definition thread_step (p : pc) (l : bool) (m : TypeStrToProtoMap)
    : option (pc * bool * TypeStrToProtoMap) :=
  match p with
  | Called type_str =>
      let r := let* type := FromString type_str in
               let* typeStr := ToString type "" "" in
               Ok (typeStr, type) in
      Some (match r with
            | Ok (typeStr, type) => Waiting typeStr type
            | Err e => Stopped e
            end, l, m)
  | Waiting typeStr type_proto =>
      if l then None else Some (Locked typeStr type_proto, true, m)
  | Locked typeStr type_proto =>
      Some (if bool_decide (map_find typeStr m = None)
            then Missing typeStr type_proto else Present typeStr, l, m)
  | Missing typeStr type_proto =>
      Some (Present typeStr, l, map_assign typeStr type_proto m)
  | Present typeStr =>
      Some (match map_find typeStr m with
            | Some node => Returned node
            | None => Stopped EndIterator
            end, false, m)
  | Returned _ | Stopped _ => None
  end.

Inductive step : state -> state -> Prop :=
  | step_thread st i p p' l' m' :
      threads st !! i = Some p ->
      thread_step p (lock st) (table st) = Some (p', l', m') ->
      step st {| lock := l'; table := m'; threads := <[i := p']> (threads st) |}.

(** One thread scheduled: its next statement, or nothing when it is blocked
    or has finished. *)
Definition schedule_step (st : state) (i : nat) : state :=
  match threads st !! i with
  | Some p =>
      match thread_step p (lock st) (table st) with
      | Some (p', l', m') =>
          {| lock := l'; table := m'; threads := <[i := p']> (threads st) |}
      | None => st
      end
  | None => st
  end.

Definition run (st : state) (schedule : list nat) : state :=
  foldl schedule_step st schedule.

(** One thread per string of [type_strs], none started, the lock free. *)
Definition init (type_strs : list string) (m : TypeStrToProtoMap) : state :=
  {| lock := false; table := m; threads := Called <$> type_strs |}.

(** Statements still to execute, per thread and in all. *)
Definition remaining (p : pc) : nat :=
  match p with
  | Called _ => 5
  | Waiting _ _ => 4
  | Locked _ _ => 3
  | Missing _ _ => 2
  | Present _ => 1
  | Returned _ | Stopped _ => 0
  end.

Definition work (st : state) : nat := sum_list (remaining <$> threads st).

Definition returned (p : pc) : bool :=
  match p with Returned _ => true | _ => false end.

End Concurrent.

(** * Definitions used to state the properties *)

(** The list-level reading of the strip operations, written from the
    specification's words: remove leading whitespace, remove trailing
    whitespace, remove one given prefix or suffix when it is there. *)
Fixpoint strip_left_ws (l : list ascii) : list ascii :=
  match l with
  | c :: l' => if isspace c then strip_left_ws l' else l
  | [] => []
  end.

Definition strip_right_ws (l : list ascii) : list ascii :=
  reverse (strip_left_ws (reverse l)).

Definition strip_both_ws (l : list ascii) : list ascii :=
  strip_right_ws (strip_left_ws l).

Definition strip_prefix (p l : list ascii) : list ascii :=
  if bool_decide (p `prefix_of` l) then drop (length p) l else l.

Definition strip_suffix (p l : list ascii) : list ascii :=
  if bool_decide (p `suffix_of` l) then take (length l - length p) l else l.

Definition all_space (l : list ascii) : Prop := Forall (fun c => isspace c = true) l.

(** The specification's [stripParenthesesAndWhitespace], step by step. *)
Definition strip_parens_ws (l : list ascii) : list ascii :=
  strip_right_ws
    (strip_suffix [")"%char]
       (strip_both_ws (strip_prefix ["("%char] (strip_left_ws l)))).

(** The text that the specification's [parse] looks up: the trimmed input,
    unwrapped when it starts with the literal "tensor". *)
Definition element_text (type_str : string) : string :=
  let t := strip_both_ws (list_ascii_of_string type_str) in
  string_of_list_ascii
    (if bool_decide (list_ascii_of_string "tensor" `prefix_of` t)
     then strip_parens_ws (drop 6 t)
     else t).

(** The canonical string of an input: [FromString], then [ToString] with no
    decoration, as [ToType(const std::string&)] computes it. *)
Definition canonical (type_str : string) : result string :=
  let* type := FromString type_str in ToString type "" "".

(** A tensor descriptor whose shape is present and has no dimension. *)
Definition rank0 (t : TypeProto_Tensor) : Prop :=
  exists sh, shape t = Some sh /\ dim sh = [].

(** A text with a visible character that is no parenthesis at either end. *)
Definition plain_edges (e : list ascii) : bool :=
  match head e, last e with
  | Some c, Some d =>
      negb (isspace c) && bool_decide (c <> "("%char) &&
      negb (isspace d) && bool_decide (d <> ")"%char)
  | _, _ => false
  end.

(** A string of whitespace only. *)
Definition space_string (w : string) : Prop := all_space (list_ascii_of_string w).

(** ** Invariants of a range *)

Module StringRangeInv.
Import StringRange.

(** The valid range lies inside the storage. *)
Definition inbounds (r : t) : Prop := data_ r + size_ r <= length (buf r).

(** What every strip leaves alone: the storage and the start of the capture;
    the front edge only moves forward, the back edge only backward, and the
    end of the capture follows the front edge. *)
Definition narrows (r r' : t) : Prop :=
  buf r' = buf r /\ start_ r' = start_ r /\
  data_ r <= data_ r' /\ data_ r' + size_ r' <= data_ r + size_ r /\
  end_ r' + data_ r = end_ r + data_ r'.

(** The strip operations of the class, as values, to speak of sequences of
    calls. *)
Inductive strip_op :=
  | OpLStrip
  | OpLStrip_size (size : nat)
  | OpLStrip_range (str : t)
  | OpRStrip
  | OpRStrip_size (size : nat)
  | OpRStrip_range (str : t)
  | OpLAndRStrip
  | OpParensWhitespaceStrip.

Definition apply_op (r : t) (op : strip_op) : t :=
  match op with
  | OpLStrip => (LStrip r).2
  | OpLStrip_size size => (LStrip_size size r).2
  | OpLStrip_range str => (LStrip_range str r).2
  | OpRStrip => (RStrip r).2
  | OpRStrip_size size => (RStrip_size size r).2
  | OpRStrip_range str => (RStrip_range str r).2
  | OpLAndRStrip => (LAndRStrip r).2
  | OpParensWhitespaceStrip => ParensWhitespaceStrip r
  end.

Definition apply_ops (r : t) (ops : list strip_op) : t := foldl apply_op r ops.

End StringRangeInv.

(** ** Names of the registry *)

Module RegistryDefs.
Import TypesWrapper.

(** The canonical names, in the order of the constructor. *)
Definition names : list string := assignments.*1.

Definition first_table : gmap string Z :=
  foldl (fun m p => <[p.1 := p.2]> m) ∅ assignments.

End RegistryDefs.

(** ** What holds of the threads between any two steps *)

Module ConcurrentInv.
Import Concurrent.

Section same_canonical_string.
(** Every thread was called with a string whose canonical string is
    [typeStr]; [m0] is the table before the first call. *)
Variables (typeStr : string) (m0 : TypeStrToProtoMap).

Definition pc_ok (m : TypeStrToProtoMap) (p : pc) : Prop :=
  match p with
  | Called s => canonical s = Ok typeStr
  | Waiting c _ | Locked c _ => c = typeStr
  | Missing c _ => c = typeStr /\ map_find typeStr m = None
  | Present c => c = typeStr /\ is_Some (map_find typeStr m)
  | Returned h => map_find typeStr m = Some h
  | Stopped _ => False
  end.

Record inv (st : state) : Prop := {
  inv_pcs : forall i p, threads st !! i = Some p -> pc_ok (table st) p;
  inv_lock :
    if lock st
    then exists i p, threads st !! i = Some p /\ in_guard p = true /\
           forall j q, threads st !! j = Some q -> in_guard q = true -> j = i
    else forall j q, threads st !! j = Some q -> in_guard q = false;
  inv_table :
    table st = m0 \/
    (map_find typeStr m0 = None /\
     exists type, table st = m0 ++ [(typeStr, type)])
}.

End same_canonical_string.
End ConcurrentInv.

(** ** Definitions for the further properties *)

Module StringRangeOps.
Import StringRange StringRangeInv.

(** The flag a strip returns; [ParensWhitespaceStrip] returns nothing. *)
Definition op_flag (r : t) (op : strip_op) : option bool :=
  match op with
  | OpLStrip => Some (LStrip r).1
  | OpLStrip_size size => Some (LStrip_size size r).1
  | OpLStrip_range str => Some (LStrip_range str r).1
  | OpRStrip => Some (RStrip r).1
  | OpRStrip_size size => Some (RStrip_size size r).1
  | OpRStrip_range str => Some (RStrip_range str r).1
  | OpLAndRStrip => Some (LAndRStrip r).1
  | OpParensWhitespaceStrip => None
  end.

End StringRangeOps.

(** The test of [ToString] for the scalar case. *)
Definition is_scalar (t : TypeProto_Tensor) : bool :=
  has_shape t && (dim_size (shape_or_default t) =? 0).

(** What the interner's table always satisfies: no key twice, and every
    stored descriptor formats to its key. *)
Definition table_ok (m : TypeStrToProtoMap) : Prop :=
  NoDup (m.*1) /\ forall k v, (k, v) ∈ m -> ToString v "" "" = Ok k.

(** Equalities and decidable facts between closed terms, by evaluation. *)
Ltac by_evaluation :=
  lazymatch goal with
  | |- ?x = _ => vm_cast_no_check (eq_refl x)
  | |- ?P => apply (bool_decide_unpack P); vm_cast_no_check I
  end.

(** * Properties *)

(** ** Lists of characters *)

Section strip_lists.
Implicit Types l ws : list ascii.

Lemma strip_left_ws_app_space ws l :
  all_space ws -> strip_left_ws (ws ++ l) = strip_left_ws l.
Proof. induction 1 as [|c ws Hc _ IH]; simpl; [done|by rewrite Hc]. Qed.

Lemma strip_left_ws_cons c l :
  isspace c = false -> strip_left_ws (c :: l) = c :: l.
Proof. intros H. simpl. by rewrite H. Qed.

Lemma strip_left_ws_all_space ws : all_space ws -> strip_left_ws ws = [].
Proof.
  intros H. rewrite <- (app_nil_r ws). by rewrite strip_left_ws_app_space.
Qed.

Lemma all_space_reverse ws : all_space ws -> all_space (reverse ws).
Proof. unfold all_space. by rewrite Forall_reverse. Qed.

Lemma strip_right_ws_app_space ws l :
  all_space ws -> strip_right_ws (l ++ ws) = strip_right_ws l.
Proof.
  intros H. unfold strip_right_ws.
  by rewrite reverse_app, strip_left_ws_app_space by by apply all_space_reverse.
Qed.

Lemma strip_right_ws_snoc c l :
  isspace c = false -> strip_right_ws (l ++ [c]) = l ++ [c].
Proof.
  intros H. unfold strip_right_ws.
  by rewrite reverse_snoc, strip_left_ws_cons, reverse_cons, reverse_involutive.
Qed.

Lemma strip_right_ws_all_space ws : all_space ws -> strip_right_ws ws = [].
Proof.
  intros H. unfold strip_right_ws.
  by rewrite strip_left_ws_all_space by by apply all_space_reverse.
Qed.

Lemma strip_right_ws_nil : strip_right_ws [] = [].
Proof. done. Qed.

(** Whitespace after a text that ends in a visible character. *)
Lemma strip_right_ws_snoc_space c l ws :
  isspace c = false -> all_space ws -> strip_right_ws (l ++ c :: ws) = l ++ [c].
Proof.
  intros Hc Hws. rewrite (cons_middle c), app_assoc.
  by rewrite strip_right_ws_app_space, strip_right_ws_snoc.
Qed.

Lemma strip_prefix_app p l : strip_prefix p (p ++ l) = l.
Proof.
  unfold strip_prefix. rewrite bool_decide_eq_true_2 by by apply prefix_app_r.
  by rewrite drop_app_length.
Qed.

Lemma strip_prefix_head c d l : c <> d -> strip_prefix [c] (d :: l) = d :: l.
Proof.
  intros H. unfold strip_prefix. rewrite bool_decide_eq_false_2; [done|].
  intros [k Hk]. simplify_eq/=.
Qed.

Lemma strip_prefix_nil c : strip_prefix [c] [] = [].
Proof. done. Qed.

Lemma strip_suffix_app p l : strip_suffix p (l ++ p) = l.
Proof.
  unfold strip_suffix. rewrite bool_decide_eq_true_2 by by apply suffix_app_r.
  rewrite length_app.
  replace (length l + length p - length p) with (length l) by lia.
  by rewrite take_app_length.
Qed.

Lemma strip_suffix_last c d l : c <> d -> strip_suffix [c] (l ++ [d]) = l ++ [d].
Proof.
  intros H. unfold strip_suffix. rewrite bool_decide_eq_false_2; [done|].
  intros [k Hk]. apply app_inj_tail in Hk as [_ ?]. congruence.
Qed.

Lemma strip_suffix_nil c : strip_suffix [c] [] = [].
Proof. done. Qed.

Lemma all_space_app ws1 ws2 : all_space ws1 -> all_space ws2 -> all_space (ws1 ++ ws2).
Proof. unfold all_space. rewrite Forall_app. auto. Qed.

Lemma strip_left_ws_head l l' c :
  head l = Some c -> isspace c = false -> strip_left_ws (l ++ l') = l ++ l'.
Proof. destruct l; intros [= ->] H. by apply strip_left_ws_cons. Qed.

Lemma strip_prefix_other c d l :
  head l = Some d -> c <> d -> strip_prefix [c] l = l.
Proof. destruct l; intros [= ->] H. by apply strip_prefix_head. Qed.

Lemma strip_left_ws_idemp l : strip_left_ws (strip_left_ws l) = strip_left_ws l.
Proof.
  induction l as [|c l IH]; simpl; [done|].
  destruct (isspace c) eqn:E; [done|]. simpl. by rewrite E.
Qed.

Lemma strip_prefix_cons c l : strip_prefix [c] (c :: l) = l.
Proof. apply (strip_prefix_app [c]). Qed.

(** The parenthesis strip on a text of the form [ws ( ws e ws ) ws], every
    part optional.  [e] is the inner text: it neither starts nor ends with
    whitespace, and a parenthesis at one of its ends is its own only where the
    form has the one that is stripped. *)
Lemma strip_parens_ws_form ws0 lp ws1 e ws2 rp ws3 :
  all_space ws0 -> all_space ws1 -> all_space ws2 -> all_space ws3 ->
  lp = [] \/ lp = ["("%char] ->
  rp = [] \/ rp = [")"%char] ->
  (forall c, head e = Some c -> isspace c = false /\ (lp = [] -> c <> "("%char)) ->
  (forall c, last e = Some c -> isspace c = false /\ (rp = [] -> c <> ")"%char)) ->
  strip_parens_ws (ws0 ++ lp ++ ws1 ++ e ++ ws2 ++ rp ++ ws3) = e.
Proof.
  intros H0 H1 H2 H3 Hlp Hrp Hhd Hlt. unfold strip_parens_ws, strip_both_ws.
  rewrite strip_left_ws_app_space by done.
  assert (Hfront : strip_left_ws (strip_prefix ["("%char]
            (strip_left_ws (lp ++ ws1 ++ e ++ ws2 ++ rp ++ ws3)))
          = strip_left_ws (e ++ ws2 ++ rp ++ ws3)).
  { destruct Hlp as [-> | ->]; simpl app.
    - rewrite strip_left_ws_app_space by done.
      rewrite <- (strip_left_ws_idemp (e ++ _)) at 2. f_equal.
      destruct e as [|c e]; simpl app.
      + rewrite strip_left_ws_app_space by done.
        destruct Hrp as [-> | ->]; simpl app.
        * by rewrite strip_left_ws_all_space.
        * rewrite strip_left_ws_cons by by vm_compute.
          by apply strip_prefix_head.
      + destruct (Hhd c) as [Hcs Hcp]; [done|].
        rewrite strip_left_ws_cons by done.
        apply strip_prefix_head. intros <-. by apply Hcp.
    - rewrite strip_left_ws_cons by by vm_compute.
      rewrite strip_prefix_cons.
      by rewrite strip_left_ws_app_space by done. }
  rewrite Hfront. clear Hfront.
  destruct (decide (e = [])) as [-> | Hne].
  - (* nothing between the parentheses *)
    simpl app. rewrite strip_left_ws_app_space by done.
    destruct Hrp as [-> | ->]; simpl app.
    + by rewrite strip_left_ws_all_space.
    + rewrite strip_left_ws_cons by by vm_compute.
      pose proof (strip_right_ws_snoc_space ")"%char [] ws3 eq_refl H3) as Hx.
      simpl app in Hx. by rewrite Hx.
  - destruct (exists_last Hne) as (e' & d & He).
    destruct (head e) as [c|] eqn:Hc; [|by destruct e].
    destruct (Hhd c) as [Hcs _]; [done|].
    destruct (Hlt d) as [Hds Hdp]; [by rewrite He, last_snoc|].
    rewrite (strip_left_ws_head e _ c) by done. subst e.
    destruct Hrp as [-> | ->]; simpl app.
    + rewrite <- app_assoc. simpl app.
      rewrite strip_right_ws_snoc_space by (done || by apply all_space_app).
      rewrite strip_suffix_last by (intros <-; by apply Hdp).
      by apply strip_right_ws_snoc.
    + rewrite (cons_middle ")"%char), !app_assoc.
      rewrite strip_right_ws_app_space by done.
      rewrite strip_right_ws_snoc by by vm_compute.
      rewrite strip_suffix_app, <- app_assoc.
      by apply strip_right_ws_snoc_space.
Qed.

End strip_lists.

(** ** What the strips do to the characters of a range *)

Module StringRangeFacts.
Import StringRange StringRangeInv.

Lemma length_chars r : inbounds r -> length (chars r) = size_ r.
Proof.
  unfold inbounds, chars. intros H. rewrite length_take, length_drop. lia.
Qed.

(** The loop of [LStrip()] counts the whitespace at the front of the range. *)
Lemma LStrip_loop_spec b : forall rem ptr,
  ptr + rem <= length b ->
  LStrip_loop b ptr rem <= rem /\
  drop (LStrip_loop b ptr rem) (take rem (drop ptr b))
    = strip_left_ws (take rem (drop ptr b)).
Proof.
  induction rem as [|rem IH]; intros ptr Hb; simpl.
  - split; [lia|done].
  - destruct (lookup_lt_is_Some_2 b ptr) as [c Hc]; [lia|].
    rewrite Hc. rewrite (drop_S _ _ _ Hc). simpl.
    destruct (isspace c); simpl.
    + destruct (IH (S ptr)) as [Hle Heq]; [lia|]. split; [lia|done].
    + split; [lia|done].
Qed.

(** The loop of [RStrip()] counts the whitespace at the back of the range. *)
Lemma RStrip_loop_spec b data : forall rem,
  data + rem <= length b ->
  RStrip_loop b data rem <= rem /\
  take (rem - RStrip_loop b data rem) (drop data b)
    = strip_right_ws (take rem (drop data b)).
Proof.
  unfold strip_right_ws.
  induction rem as [|rem IH]; intros Hb; simpl.
  - split; [lia|done].
  - destruct (lookup_lt_is_Some_2 b (data + rem)) as [c Hc]; [lia|].
    rewrite Hc.
    assert (Hd : drop data b !! rem = Some c) by by rewrite lookup_drop.
    rewrite (take_S_r _ _ _ Hd), reverse_snoc. simpl.
    destruct (isspace c).
    + destruct IH as [Hle Heq]; [lia|]. split; [lia|].
      replace (S rem - S (RStrip_loop b data rem))
        with (rem - RStrip_loop b data rem) by lia.
      done.
    + split; [lia|].
      rewrite reverse_cons, reverse_involutive.
      replace (S rem - 0) with (S rem) by lia.
      by rewrite (take_S_r _ _ _ Hd).
Qed.

Lemma chars_LStrip_size n r :
  chars (LStrip_size n r).2 = if n <=? size_ r then drop n (chars r) else chars r.
Proof.
  unfold LStrip_size, chars. destruct (n <=? size_ r) eqn:E; simpl; [|done].
  apply Nat.leb_le in E.
  rewrite <- drop_drop, take_drop_commute.
  by replace (n + (size_ r - n)) with (size_ r) by lia.
Qed.

Lemma chars_RStrip_size n r :
  chars (RStrip_size n r).2 =
    if n <=? size_ r then take (size_ r - n) (chars r) else chars r.
Proof.
  unfold RStrip_size, chars. destruct (n <=? size_ r) eqn:E; simpl; [|done].
  rewrite take_take. f_equal. lia.
Qed.

Lemma chars_LStrip r : inbounds r -> chars (LStrip r).2 = strip_left_ws (chars r).
Proof.
  intros Hb. unfold LStrip.
  destruct (LStrip_loop_spec (buf r) (size_ r) (data_ r) Hb) as [Hle Heq].
  fold (chars r) in Heq. rewrite <- Heq.
  destruct (0 <? _) eqn:E.
  - rewrite chars_LStrip_size. by apply Nat.leb_le in Hle as ->.
  - apply Nat.ltb_ge in E.
    by replace (LStrip_loop (buf r) (data_ r) (size_ r)) with 0 by lia.
Qed.

Lemma chars_RStrip r : inbounds r -> chars (RStrip r).2 = strip_right_ws (chars r).
Proof.
  intros Hb. unfold RStrip.
  destruct (RStrip_loop_spec (buf r) (data_ r) (size_ r) Hb) as [Hle Heq].
  fold (chars r) in Heq. rewrite <- Heq.
  destruct (0 <? _) eqn:E.
  - rewrite chars_RStrip_size. apply Nat.leb_le in Hle as ->.
    unfold chars. rewrite take_take. f_equal. lia.
  - apply Nat.ltb_ge in E.
    replace (RStrip_loop (buf r) (data_ r) (size_ r)) with 0 by lia.
    by rewrite Nat.sub_0_r.
Qed.

Lemma prefix_take (p l : list ascii) :
  p `prefix_of` l <-> length p <= length l /\ take (length p) l = p.
Proof.
  split.
  - intros [k ->]. rewrite length_app, take_app_length. split; [lia|done].
  - intros [_ H]. exists (drop (length p) l). by rewrite <- H at 1; rewrite take_drop.
Qed.

Lemma suffix_drop (p l : list ascii) :
  p `suffix_of` l <-> length p <= length l /\ drop (length l - length p) l = p.
Proof.
  split.
  - intros [k ->]. rewrite length_app. split; [lia|].
    replace (length k + length p - length p) with (length k) by lia.
    by rewrite drop_app_length.
  - intros [_ H]. exists (take (length l - length p) l).
    by rewrite <- H at 2; rewrite take_drop.
Qed.

(** [StartsWith] and [EndsWith], with their [memcmp] on offsets, decide
    prefix and suffix of the characters. *)
Lemma StartsWith_spec r str :
  inbounds r -> inbounds str ->
  StartsWith r str = bool_decide (chars str `prefix_of` chars r).
Proof.
  intros Hr Hs. unfold StartsWith, memcmp_eq, Data. simpl.
  fold (chars str).
  destruct (size_ str <=? size_ r) eqn:E; simpl.
  - apply Nat.leb_le in E. apply bool_decide_ext.
    rewrite prefix_take, !length_chars by done.
    replace (take (size_ str) (chars r))
      with (take (size_ str) (drop (data_ r) (buf r)))
      by (unfold chars; rewrite take_take; f_equal; lia).
    tauto.
  - apply Nat.leb_gt in E. symmetry. apply bool_decide_eq_false.
    intros [H _]%prefix_take. rewrite !length_chars in H by done. lia.
Qed.

Lemma EndsWith_spec r str :
  inbounds r -> inbounds str ->
  EndsWith r str = bool_decide (chars str `suffix_of` chars r).
Proof.
  intros Hr Hs. unfold EndsWith, memcmp_eq, Data. simpl.
  fold (chars str).
  destruct (size_ str <=? size_ r) eqn:E; simpl.
  - apply Nat.leb_le in E. apply bool_decide_ext.
    rewrite suffix_drop, !length_chars by done.
    replace (drop (size_ r - size_ str) (chars r))
      with (take (size_ str) (drop (data_ r + (size_ r - size_ str)) (buf r))).
    + tauto.
    + unfold chars. rewrite <- drop_drop, take_drop_commute.
      do 2 f_equal. lia.
  - apply Nat.leb_gt in E. symmetry. apply bool_decide_eq_false.
    intros [H _]%suffix_drop. rewrite !length_chars in H by done. lia.
Qed.

Lemma chars_LStrip_range r str :
  inbounds r -> inbounds str ->
  chars (LStrip_range str r).2 = strip_prefix (chars str) (chars r).
Proof.
  intros Hr Hs. unfold LStrip_range, strip_prefix.
  rewrite StartsWith_spec by done. case_bool_decide as H; [|done].
  apply prefix_take in H as [H _]. rewrite !length_chars in H by done.
  rewrite chars_LStrip_size, length_chars by done.
  by apply Nat.leb_le in H as ->.
Qed.

Lemma chars_RStrip_range r str :
  inbounds r -> inbounds str ->
  chars (RStrip_range str r).2 = strip_suffix (chars str) (chars r).
Proof.
  intros Hr Hs. unfold RStrip_range, strip_suffix.
  rewrite EndsWith_spec by done. case_bool_decide as H; [|done].
  apply suffix_drop in H as [H _]. rewrite !length_chars in H by done.
  rewrite chars_RStrip_size, !length_chars by done.
  by apply Nat.leb_le in H as ->.
Qed.

Lemma narrows_refl r : narrows r r.
Proof. unfold narrows. auto with lia. Qed.

Lemma narrows_trans r1 r2 r3 : narrows r1 r2 -> narrows r2 r3 -> narrows r1 r3.
Proof.
  unfold narrows. intros (?&?&?&?&?) (?&?&?&?&?).
  repeat split; try congruence; lia.
Qed.

Lemma narrows_LStrip_size n r : narrows r (LStrip_size n r).2.
Proof.
  unfold LStrip_size. destruct (n <=? size_ r) eqn:E; [|apply narrows_refl].
  apply Nat.leb_le in E. unfold narrows. simpl. auto with lia.
Qed.

Lemma narrows_RStrip_size n r : narrows r (RStrip_size n r).2.
Proof.
  unfold RStrip_size. destruct (n <=? size_ r) eqn:E; [|apply narrows_refl].
  unfold narrows. simpl. auto with lia.
Qed.

Lemma narrows_LStrip r : narrows r (LStrip r).2.
Proof.
  unfold LStrip. destruct (0 <? _); [apply narrows_LStrip_size|apply narrows_refl].
Qed.

Lemma narrows_RStrip r : narrows r (RStrip r).2.
Proof.
  unfold RStrip. destruct (0 <? _); [apply narrows_RStrip_size|apply narrows_refl].
Qed.

Lemma narrows_LStrip_range str r : narrows r (LStrip_range str r).2.
Proof.
  unfold LStrip_range.
  destruct (StartsWith _ _); [apply narrows_LStrip_size|apply narrows_refl].
Qed.

Lemma narrows_RStrip_range str r : narrows r (RStrip_range str r).2.
Proof.
  unfold RStrip_range.
  destruct (EndsWith _ _); [apply narrows_RStrip_size|apply narrows_refl].
Qed.

Lemma LAndRStrip_snd r : (LAndRStrip r).2 = (RStrip (LStrip r).2).2.
Proof. unfold LAndRStrip. destruct (LStrip r), (RStrip _). done. Qed.

Lemma narrows_LAndRStrip r : narrows r (LAndRStrip r).2.
Proof.
  rewrite LAndRStrip_snd.
  eapply narrows_trans; [apply narrows_LStrip|apply narrows_RStrip].
Qed.

Lemma narrows_ParensWhitespaceStrip r : narrows r (ParensWhitespaceStrip r).
Proof.
  unfold ParensWhitespaceStrip.
  eapply narrows_trans; [apply narrows_LStrip|].
  eapply narrows_trans; [apply narrows_LStrip_range|].
  eapply narrows_trans; [apply narrows_LAndRStrip|].
  eapply narrows_trans; [apply narrows_RStrip_range|apply narrows_RStrip].
Qed.

(** The captured range never ends before it starts, so [end_ - start_] in
    [GetCaptured] does not wrap. *)
Lemma narrows_capture r r' :
  narrows r r' -> start_ r <= end_ r -> start_ r' <= end_ r'.
Proof. unfold narrows. intros (_&->&?&?&?). lia. Qed.

Lemma narrows_inbounds r r' : narrows r r' -> inbounds r -> inbounds r'.
Proof. unfold narrows, inbounds. intros (->&?&?&?&?). lia. Qed.

(** The characters after a strip are a segment of the characters before. *)
Lemma narrows_chars r r' :
  narrows r r' -> inbounds r ->
  chars r = take (data_ r' - data_ r) (chars r) ++ chars r' ++
            drop (data_ r' - data_ r + size_ r') (chars r).
Proof.
  intros (Hb&_&Hd&Hs&_) Hr.
  rewrite <- (take_drop (data_ r' - data_ r) (chars r)) at 1. f_equal.
  rewrite <- (take_drop (size_ r') (drop _ (chars r))) at 1.
  rewrite drop_drop. f_equal.
  unfold chars. rewrite Hb.
  replace (size_ r)
    with ((data_ r' - data_ r) + (size_ r - (data_ r' - data_ r))) at 1 by lia.
  rewrite <- take_drop_commute, drop_drop, take_take.
  f_equal; [lia|]. f_equal. lia.
Qed.

Lemma LAndRStrip_chars r :
  inbounds r -> chars (LAndRStrip r).2 = strip_both_ws (chars r).
Proof.
  intros Hr. rewrite LAndRStrip_snd, chars_RStrip, chars_LStrip; [done..|].
  eapply narrows_inbounds; [apply narrows_LStrip|done].
Qed.

Lemma of_data_size_inbounds b d n :
  d + n <= length b -> inbounds (of_data_size (b, d) n).
Proof.
  intros H. unfold of_data_size.
  eapply narrows_inbounds; [apply narrows_LAndRStrip|]. by unfold inbounds.
Qed.

Lemma of_data_size_chars b d n :
  d + n <= length b ->
  chars (of_data_size (b, d) n) = strip_both_ws (take n (drop d b)).
Proof. intros H. unfold of_data_size. by rewrite LAndRStrip_chars. Qed.

Lemma length_list_ascii_of_string s :
  length (list_ascii_of_string s) = String.length s.
Proof. induction s; simpl; congruence. Qed.

Lemma of_std_string_inbounds s : inbounds (of_std_string s).
Proof.
  apply of_data_size_inbounds. rewrite length_list_ascii_of_string. simpl. lia.
Qed.

Lemma of_std_string_chars s :
  chars (of_std_string s) = strip_both_ws (list_ascii_of_string s).
Proof.
  unfold of_std_string. rewrite of_data_size_chars.
  - by rewrite drop_0, <- length_list_ascii_of_string, firstn_all.
  - rewrite length_list_ascii_of_string. simpl. lia.
Qed.

(** The five strips of [ParensWhitespaceStrip] on the characters. *)
Lemma ParensWhitespaceStrip_chars r :
  inbounds r ->
  chars (ParensWhitespaceStrip r) =
    strip_right_ws
      (strip_suffix [")"%char]
         (strip_both_ws
            (strip_prefix ["("%char] (strip_left_ws (chars r))))).
Proof.
  intros Hr. unfold ParensWhitespaceStrip.
  assert (H1 : inbounds (LStrip r).2)
    by (eapply narrows_inbounds; [apply narrows_LStrip|done]).
  assert (H2 : inbounds (LStrip_range (of_cstr "(") (LStrip r).2).2)
    by (eapply narrows_inbounds; [apply narrows_LStrip_range|done]).
  assert (H3 : inbounds (LAndRStrip (LStrip_range (of_cstr "(") (LStrip r).2).2).2)
    by (eapply narrows_inbounds; [apply narrows_LAndRStrip|done]).
  assert (H4 : inbounds (RStrip_range (of_cstr ")")
             (LAndRStrip (LStrip_range (of_cstr "(") (LStrip r).2).2).2).2)
    by (eapply narrows_inbounds; [apply narrows_RStrip_range|done]).
  rewrite chars_RStrip, chars_RStrip_range, LAndRStrip_chars,
    chars_LStrip_range, chars_LStrip; try done; by vm_compute.
Qed.

End StringRangeFacts.

(** ** The registry *)

Module RegistryFacts.
Import TypesWrapper.
Export RegistryDefs.

Lemma first_table_lookup n c :
  first_table !! n = Some c <-> (n, c) ∈ assignments.
Proof.
  assert (H : first_table = list_to_map assignments) by by_evaluation.
  rewrite H. symmetry. apply elem_of_list_to_map. by_evaluation.
Qed.

Lemma foldl_foldr_reverse {A B} (f : A -> B -> A) a l :
  foldl f a l = foldr (flip f) a (reverse l).
Proof.
  revert a. induction l as [|x l IH]; intros a; simpl; [done|].
  by rewrite reverse_cons, foldr_app, IH.
Qed.

Lemma loop_body_comm w p q :
  p.2 <> q.2 -> loop_body (loop_body w p) q = loop_body (loop_body w q) p.
Proof.
  intros H. unfold loop_body. simpl. f_equal.
  - by apply insert_insert_ne.
  - rewrite !(assoc_L (∪)). f_equal. apply (comm_L (∪)).
Qed.

Lemma table_codes_distinct :
  Forall (fun p => Forall (fun q => p = q \/ p.2 <> q.2) (map_to_list first_table))
         (map_to_list first_table).
Proof. by_evaluation. Qed.

(** The tables do not depend on the order in which the loop of the
    constructor visits the first table. *)
Lemma construct_order_irrelevant order :
  order ≡ₚ map_to_list first_table -> construct_in_order order = construct.
Proof.
  intros Hp. unfold construct, construct_in_order. fold first_table.
  rewrite !foldl_foldr_reverse.
  assert (Hrev' : reverse order ≡ₚ map_to_list first_table)
    by (etrans; [apply reverse_Permutation|exact Hp]).
  assert (Hrev : reverse order ≡ₚ reverse (map_to_list first_table))
    by (etrans; [exact Hrev'|symmetry; apply reverse_Permutation]).
  apply (foldr_permutation (=)); [by intros x w1 w2 ->| |done].
  intros j1 a1 j2 a2 w Hj H1 H2. unfold flip.
  assert (Hnd : NoDup (reverse order)).
  { apply (NoDup_Permutation_proper _ _ Hrev'), NoDup_map_to_list. }
  assert (Hne : a1 <> a2).
  { intros ->. apply Hj. by eapply NoDup_lookup. }
  assert (Hin : forall a, a ∈ reverse order -> a ∈ map_to_list first_table).
  { intros a Ha. by apply (elem_of_Permutation_proper _ _ _ Hrev') in Ha. }
  pose proof table_codes_distinct as Hd.
  rewrite Forall_forall in Hd.
  specialize (Hd a2 (Hin _ (list_elem_of_lookup_2 _ _ _ H2))).
  rewrite Forall_forall in Hd.
  destruct (Hd a1 (Hin _ (list_elem_of_lookup_2 _ _ _ H1))) as [?|?]; [congruence|].
  by apply loop_body_comm.
Qed.


Lemma allowed_names :
  allowed_data_types_ GetTypesWrapper = list_to_set names.
Proof. by_evaluation. Qed.

Lemma name_table : type_str_to_tensor_data_type_ GetTypesWrapper = first_table.
Proof. by_evaluation. Qed.

Lemma code_table :
  tensor_data_type_to_type_str_ GetTypesWrapper
    = list_to_map ((fun p => (p.2, p.1)) <$> assignments).
Proof. by_evaluation. Qed.

Lemma code_table_lookup c n :
  tensor_data_type_to_type_str_ GetTypesWrapper !! c = Some n
  <-> (n, c) ∈ assignments.
Proof.
  rewrite code_table, <- elem_of_list_to_map.
  - rewrite list_elem_of_fmap. split.
    + intros ([n' c'] & [= -> ->] & H). done.
    + intros H. by exists (n, c).
  - by_evaluation.
Qed.

Lemma IsValidDataTypeString_names type_str :
  IsValidDataTypeString type_str = true <-> type_str ∈ names.
Proof.
  unfold IsValidDataTypeString, GetAllowedDataTypes.
  rewrite bool_decide_eq_true, allowed_names. apply elem_of_list_to_set.
Qed.

(** [operator[]] on the first table never inserts for a valid name: the
    registry is not written after its construction. *)
Lemma index_valid type_str :
  IsValidDataTypeString type_str = true ->
  exists c, map_index (TypeStrToTensorDataType GetTypesWrapper) type_str
            = (c, TypeStrToTensorDataType GetTypesWrapper).
Proof.
  intros H%IsValidDataTypeString_names. unfold map_index.
  apply list_elem_of_fmap in H as ([n c] & -> & H).
  unfold TypeStrToTensorDataType. rewrite name_table.
  apply first_table_lookup in H. simpl. rewrite H. by exists c.
Qed.

(** The assertion of [FromDataTypeString] is what keeps an unknown name out:
    [operator[]] alone would give it the code 0 and enter it in the table. *)
Lemma index_invalid type_str :
  IsValidDataTypeString type_str = false ->
  map_index (TypeStrToTensorDataType GetTypesWrapper) type_str
    = (0%Z, <[type_str := 0%Z]> (TypeStrToTensorDataType GetTypesWrapper)).
Proof.
  intros H. unfold map_index, TypeStrToTensorDataType. rewrite name_table.
  destruct (first_table !! type_str) as [c|] eqn:Hc; [|reflexivity].
  apply first_table_lookup in Hc.
  assert (Hin : type_str ∈ names).
  { apply list_elem_of_fmap. exists (type_str, c). split; [reflexivity|exact Hc]. }
  apply IsValidDataTypeString_names in Hin. rewrite Hin in H. discriminate H.
Qed.

End RegistryFacts.

(** ** The codec reads the text the specification describes *)

Module CodecFacts.
Import StringRange StringRangeInv StringRangeFacts.

Lemma LStrip_range_fst str r : (LStrip_range str r).1 = StartsWith r str.
Proof.
  unfold LStrip_range. destruct (StartsWith r str) eqn:E; [|done].
  unfold StartsWith in E. apply andb_true_iff in E as [E _].
  unfold LStrip_size. by rewrite E.
Qed.

Lemma of_cstr_tensor :
  inbounds (of_cstr "tensor") /\
  chars (of_cstr "tensor") = list_ascii_of_string "tensor".
Proof. by vm_compute. Qed.

(** [FromString] looks up [element_text type_str], and leaves the shape out
    exactly when the trimmed input starts with "tensor". *)
Lemma FromString_spec type_str :
  FromString type_str =
    let* e := FromDataTypeString (element_text type_str) in
    Ok (kTensorType
          {| elem_type := e;
             shape :=
               if bool_decide (list_ascii_of_string "tensor" `prefix_of`
                                 strip_both_ws (list_ascii_of_string type_str))
               then None else Some {| dim := [] |} |}).
Proof.
  unfold FromString, element_text.
  pose proof (of_std_string_inbounds type_str) as Hb.
  pose proof (of_std_string_chars type_str) as Hc.
  destruct of_cstr_tensor as [Htb Htc].
  pose proof (LStrip_range_fst (of_cstr "tensor") (of_std_string type_str)) as Hf.
  pose proof (chars_LStrip_range _ _ Hb Htb) as Hs.
  pose proof (narrows_LStrip_range (of_cstr "tensor") (of_std_string type_str)) as Hn.
  destruct (LStrip_range _ _) as [stripped s]. simpl in Hf, Hs, Hn.
  rewrite StartsWith_spec, Htc, Hc in Hf by done.
  rewrite Htc, Hc in Hs. unfold strip_prefix in Hs.
  subst stripped. unfold to_string.
  case_bool_decide.
  - rewrite ParensWhitespaceStrip_chars, Hs by by eapply narrows_inbounds.
    done.
  - by rewrite Hs.
Qed.

End CodecFacts.

(** ** Strings *)

Section string_lemmas.
Implicit Types s : string.

Lemma append_cons c s1 s2 : String c s1 +:+ s2 = String c (s1 +:+ s2).
Proof. reflexivity. Qed.

Lemma append_nil_l s : "" +:+ s = s.
Proof. reflexivity. Qed.

Lemma append_nil_r s : s +:+ "" = s.
Proof. induction s as [|c s IH]; [done|]. by rewrite append_cons, IH. Qed.


Lemma list_ascii_of_string_app s1 s2 :
  list_ascii_of_string (s1 +:+ s2) = list_ascii_of_string s1 ++ list_ascii_of_string s2.
Proof.
  induction s1 as [|c s1 IH]; [done|]. rewrite append_cons. simpl. by rewrite IH.
Qed.

End string_lemmas.

(** ** The interner, one call at a time *)

Module InternerFacts.

(** A sequence of two calls returns when both do. *)
Lemma bind_Ok {A B} (x : result A) (f : A -> result B) b :
  bind x f = Ok b <-> exists a, x = Ok a /\ f a = Ok b.
Proof.
  destruct x as [a|e]; simpl; split.
  - intros H. by exists a.
  - by intros (a' & [= ->] & H).
  - done.
  - by intros (a' & [=] & _).
Qed.

Lemma map_find_Some k m i :
  map_find k m = Some i -> exists v, m !! i = Some (k, v).
Proof.
  revert i. induction m as [|[k' v'] m IH]; intros i; simpl; [done|].
  case_bool_decide as Hk.
  - intros [= <-]. simpl in Hk. subst k'. by exists v'.
  - destruct (map_find k m) as [j|]; simpl; [|done].
    intros [= <-]. by apply IH.
Qed.

Lemma map_find_lt k m i : map_find k m = Some i -> i < length m.
Proof.
  intros [v Hv]%map_find_Some. by apply lookup_lt_Some in Hv.
Qed.

Lemma map_find_None k m : map_find k m = None <-> k ∉ m.*1.
Proof.
  induction m as [|[k' v'] m IH]; simpl.
  - split; [intros _; apply not_elem_of_nil|done].
  - rewrite not_elem_of_cons. case_bool_decide as Hk; simpl in Hk.
    + split; [done|]. intros [? _]. congruence.
    + destruct (map_find k m); simpl.
      * split; [done|]. intros [_ H]. by apply IH in H.
      * split; [|done]. intros _. split; [congruence|by apply IH].
Qed.

Lemma map_find_app_l k m ext i :
  map_find k m = Some i -> map_find k (m ++ ext) = Some i.
Proof.
  revert i. induction m as [|[k' v'] m IH]; intros i; simpl; [done|].
  case_bool_decide; [done|].
  destruct (map_find k m) as [j|]; simpl; [|done].
  intros [= <-]. by rewrite (IH j).
Qed.

Lemma map_find_app_r k m ext :
  map_find k m = None ->
  map_find k (m ++ ext) = (fun i => length m + i) <$> map_find k ext.
Proof.
  induction m as [|[k' v'] m IH]; simpl.
  - intros _. by destruct (map_find k ext).
  - case_bool_decide; [done|].
    destruct (map_find k m) as [j|]; simpl; [done|].
    intros _. rewrite IH by done. by destruct (map_find k ext).
Qed.

Lemma map_find_new k v m :
  map_find k m = None -> map_find k (m ++ [(k, v)]) = Some (length m).
Proof.
  intros H. rewrite map_find_app_r by done. simpl.
  rewrite bool_decide_eq_true_2 by done. simpl. f_equal. lia.
Qed.

(** What one call of [ToType] does to the table. *)
Lemma ToType_spec type_proto typeStr m :
  ToString type_proto "" "" = Ok typeStr ->
  ToType type_proto m =
    match map_find typeStr m with
    | Some node => Ok (node, m)
    | None => Ok (length m, m ++ [(typeStr, type_proto)])
    end.
Proof.
  intros H. unfold ToType. rewrite H. cbn [bind].
  destruct (map_find typeStr m) as [node|] eqn:Hf.
  - rewrite bool_decide_eq_false_2 by done. by rewrite Hf.
  - rewrite bool_decide_eq_true_2 by done.
    unfold map_assign. rewrite Hf. by rewrite map_find_new.
Qed.

Lemma ToString_Err type_proto left right e :
  ToString type_proto left right = Err e ->
  e = UnsupportedTypeDescriptor \/ e = UnknownElementCode.
Proof.
  unfold ToString. destruct type_proto as [|t]; [intros [= <-]; by left|].
  unfold ToDataTypeString.
  destruct (_ && _); destruct (_ !! _); cbn; intros [= <-]; by right.
Qed.

(** [ToType] never reads through [end()]. *)
Lemma ToType_no_end_iterator type_proto m :
  ToType type_proto m <> Err EndIterator.
Proof.
  destruct (ToString type_proto "" "") as [typeStr|e] eqn:H.
  - rewrite (ToType_spec _ _ _ H). by destruct (map_find _ _).
  - unfold ToType. rewrite H. cbn [bind]. intros [= ->].
    by destruct (ToString_Err _ _ _ _ H).
Qed.

(** Every call of [ToType] leaves the table as it is or appends one node. *)
Lemma ToType_grows type_proto m h m1 :
  ToType type_proto m = Ok (h, m1) -> m1 = m \/ exists node, m1 = m ++ [node].
Proof.
  destruct (ToString type_proto "" "") as [typeStr|e] eqn:H.
  - rewrite (ToType_spec _ _ _ H). destruct (map_find typeStr m).
    + intros [= _ <-]. by left.
    + intros [= _ <-]. right. by eexists.
  - unfold ToType. by rewrite H.
Qed.

End InternerFacts.

(** ** What is captured *)

Module CaptureFacts.
Import StringRange StringRangeInv StringRangeFacts.

Lemma narrows_apply_op r op : narrows r (apply_op r op).
Proof.
  destruct op; simpl;
    auto using narrows_LStrip, narrows_LStrip_size, narrows_LStrip_range,
      narrows_RStrip, narrows_RStrip_size, narrows_RStrip_range,
      narrows_LAndRStrip, narrows_ParensWhitespaceStrip.
Qed.

Lemma narrows_apply_ops ops : forall r, narrows r (apply_ops r ops).
Proof.
  induction ops as [|op ops IH]; intros r; simpl.
  - apply narrows_refl.
  - eapply narrows_trans; [apply narrows_apply_op|apply IH].
Qed.

(** What [GetCaptured] returns after any strips that follow a
    [RestartCapture]: the characters taken from the front since then, but
    with the whitespace at both of their ends removed by the constructor. *)
Lemma GetCaptured_after_strips r0 ops :
  inbounds r0 ->
  let r := apply_ops (RestartCapture r0) ops in
  let consumed := take (data_ r - data_ r0) (chars r0) in
  (exists back, chars r0 = consumed ++ chars r ++ back) /\
  chars (GetCaptured r) = strip_both_ws consumed.
Proof.
  intros Hb r consumed.
  pose proof (narrows_apply_ops ops (RestartCapture r0)) as Hn. fold r in Hn.
  assert (Hb' : inbounds (RestartCapture r0)) by done.
  split.
  - eexists. apply (narrows_chars _ _ Hn Hb').
  - destruct Hn as (Hbuf & Hstart & Hd & Hs & He). simpl in *.
    unfold GetCaptured. rewrite Hbuf, Hstart.
    replace (end_ r) with (data_ r) by lia.
    rewrite of_data_size_chars by (unfold inbounds in Hb; lia).
    unfold consumed, chars. rewrite take_take. do 2 f_equal. lia.
Qed.

End CaptureFacts.

(** ** Element names *)

Module NameFacts.
Import RegistryFacts.

Lemma plain_edges_spec e :
  plain_edges e = true ->
  exists c d e', head e = Some c /\ e = e' ++ [d] /\
    isspace c = false /\ c <> "("%char /\ isspace d = false /\ d <> ")"%char.
Proof.
  unfold plain_edges. destruct (head e) as [c|] eqn:Hc; [|done].
  destruct (last e) as [d|] eqn:Hd; [|done].
  rewrite !andb_true_iff, !negb_true_iff, !bool_decide_eq_true.
  intros [[[? ?] ?] ?]. apply last_Some in Hd as [e' ->].
  by exists c, d, e'.
Qed.

Lemma names_plain_edges E :
  IsValidDataTypeString E = true -> plain_edges (list_ascii_of_string E) = true.
Proof.
  intros H%IsValidDataTypeString_names. revert E H. apply Forall_forall.
  by_evaluation.
Qed.

End NameFacts.

(** ** The threads *)

Module ConcurrentFacts.
Import Concurrent InternerFacts.

Section same_canonical_string.
Variables (typeStr : string) (m0 : TypeStrToProtoMap).

Local Abbreviation pc_ok := (ConcurrentInv.pc_ok typeStr).
Local Abbreviation inv := (ConcurrentInv.inv typeStr m0).

Lemma inv_init type_strs :
  Forall (fun s => canonical s = Ok typeStr) type_strs ->
  inv (init type_strs m0).
Proof.
  intros Hall. split; simpl.
  - intros i p Hi. apply list_lookup_fmap_Some in Hi as (s & -> & Hs).
    simpl. rewrite Forall_lookup in Hall. by eapply Hall.
  - intros j q Hj. by apply list_lookup_fmap_Some in Hj as (s & -> & _).
  - by left.
Qed.

Lemma lookup_insert_pc (ts : list pc) i j p q :
  <[i := p]> ts !! j = Some q ->
  (j = i /\ q = p) \/ (j <> i /\ ts !! j = Some q).
Proof.
  destruct (decide (j = i)) as [-> | Hne].
  - intros H. left. split; [done|].
    destruct (decide (i < length ts)).
    + rewrite list_lookup_insert_eq in H by done. congruence.
    + rewrite list_insert_ge in H by lia.
      apply lookup_lt_Some in H. lia.
  - rewrite list_lookup_insert_ne by done. by right.
Qed.

(** Every statement of every thread preserves the invariant. *)
Lemma inv_step st st' : inv st -> step st st' -> inv st'.
Proof.
  intros [Hpcs Hlock Htab] Hstep.
  destruct Hstep as [st i p p' l' m' Hi Hts].
  pose proof (Hpcs i p Hi) as Hp.
  destruct st as [l m ts]. simpl in *.
  destruct p as [s|c t|c t|c t|c|h|e]; simpl in Hts, Hp; try done.
  - (* the call starts: FromString and ToString, no shared state *)
    apply bind_Ok in Hp as (type & Hparse & Hformat).
    rewrite Hparse in Hts. cbn [bind] in Hts.
    rewrite Hformat in Hts. cbn [bind] in Hts. injection Hts as <- <- <-.
    split; simpl.
    + intros j q [[-> ->]|[Hne Hj]]%lookup_insert_pc; [done|by eapply Hpcs].
    + destruct l.
      * destruct Hlock as (i0 & p0 & Hi0 & Hg0 & Huniq).
        assert (i0 <> i) by (intros ->; rewrite Hi in Hi0; by injection Hi0 as <-).
        exists i0, p0. split; [by rewrite list_lookup_insert_ne|]. split; [done|].
        intros j q [[-> ->]|[Hne Hj]]%lookup_insert_pc; [done|by eapply Huniq].
      * intros j q [[-> ->]|[Hne Hj]]%lookup_insert_pc; [done|by eapply Hlock].
    + done.
  - (* the guard is constructed *)
    subst c. destruct l; [done|]. injection Hts as <- <- <-.
    split; simpl.
    + intros j q [[-> ->]|[Hne Hj]]%lookup_insert_pc; [done|by eapply Hpcs].
    + exists i, (Locked typeStr t).
      split; [apply list_lookup_insert_eq; by eapply lookup_lt_Some|].
      split; [done|].
      intros j q [[-> ->]|[Hne Hj]]%lookup_insert_pc; [done|].
      intros Hq. by rewrite (Hlock j q Hj) in Hq.
    + done.
  - (* find *)
    subst c. injection Hts as <- <- <-.
    assert (Hl : l = true).
    { destruct l; [done|]. by specialize (Hlock i _ Hi). }
    subst l. destruct Hlock as (i0 & p0 & Hi0 & Hg0 & Huniq).
    assert (i0 = i) by (symmetry; by eapply Huniq). subst i0.
    split; simpl.
    + intros j q [[-> ->]|[Hne Hj]]%lookup_insert_pc; [|by eapply Hpcs].
      case_bool_decide as Hf; simpl; [done|].
      split; [done|]. by destruct (map_find typeStr m).
    + exists i, (if bool_decide (map_find typeStr m = None)
                 then Missing typeStr t else Present typeStr).
      split; [apply list_lookup_insert_eq; by eapply lookup_lt_Some|].
      split; [by case_bool_decide|].
      intros j q [[-> ->]|[Hne Hj]]%lookup_insert_pc; [done|by eapply Huniq].
    + done.
  - (* insert *)
    destruct Hp as (-> & Hnone). injection Hts as <- <- <-.
    assert (Hl : l = true).
    { destruct l; [done|]. by specialize (Hlock i _ Hi). }
    subst l. destruct Hlock as (i0 & p0 & Hi0 & Hg0 & Huniq).
    assert (i0 = i) by (symmetry; by eapply Huniq). subst i0.
    assert (Hm : m = m0).
    { destruct Htab as [|[Hn0 [type ->]]]; [done|].
      by rewrite map_find_new in Hnone by done. }
    subst m. unfold map_assign. rewrite Hnone.
    split; simpl.
    + intros j q [[-> ->]|[Hne Hj]]%lookup_insert_pc.
      * simpl. split; [done|]. by rewrite map_find_new.
      * pose proof (Hpcs j q Hj) as Hq.
        destruct q as [s|c t'|c t'|c t'|c|h|e]; simpl in *; try done.
        -- by specialize (Huniq j _ Hj eq_refl).
        -- by specialize (Huniq j _ Hj eq_refl).
        -- congruence.
    + exists i, (Present typeStr).
      split; [apply list_lookup_insert_eq; by eapply lookup_lt_Some|].
      split; [done|].
      intros j q [[-> ->]|[Hne Hj]]%lookup_insert_pc; [done|by eapply Huniq].
    + right. split; [done|]. by exists t.
  - (* return, the guard is destroyed *)
    destruct Hp as (-> & [h Hh]). rewrite Hh in Hts. injection Hts as <- <- <-.
    assert (Hl : l = true).
    { destruct l; [done|]. by specialize (Hlock i _ Hi). }
    subst l. destruct Hlock as (i0 & p0 & Hi0 & Hg0 & Huniq).
    split; simpl.
    + intros j q [[-> ->]|[Hne Hj]]%lookup_insert_pc; [done|by eapply Hpcs].
    + intros j q [[-> ->]|[Hne Hj]]%lookup_insert_pc; [done|].
      destruct (in_guard q) eqn:Hq; [|done].
      pose proof (Huniq j q Hj Hq). pose proof (Huniq i _ Hi eq_refl). congruence.
    + done.
Qed.

Lemma inv_reachable type_strs st :
  Forall (fun s => canonical s = Ok typeStr) type_strs ->
  rtc step (init type_strs m0) st -> inv st.
Proof.
  intros Hall. revert st. apply rtc_ind_r.
  - by apply inv_init.
  - intros st1 st2 _ Hs IH. by eapply inv_step.
Qed.


(** Some thread can always move until every thread has returned. *)
Lemma inv_progress st :
  inv st ->
  (forall i p, threads st !! i = Some p -> returned p = true) \/
  (exists st', step st st').
Proof.
  intros [Hpcs Hlock Htab].
  destruct (decide (Forall (fun p => returned p = true) (threads st)))
    as [Hall | Hnot].
  { left. intros i p Hi. rewrite Forall_lookup in Hall. by eapply Hall. }
  right. apply not_Forall_Exists in Hnot; [|apply _].
  apply Exists_exists in Hnot as (p & Hin & Hp).
  apply list_elem_of_lookup in Hin as [i Hi].
  pose proof (Hpcs i p Hi) as Hok.
  assert (Hmove : forall j q,
    threads st !! j = Some q ->
    in_guard q = true \/
      (lock st = false /\ returned q = false /\ pc_ok (table st) q) ->
    exists st', step st st').
  { intros j q Hj Hq.
    destruct (thread_step q (lock st) (table st)) as [[[q' l'] m']|] eqn:Hts.
    - eexists. by eapply step_thread.
    - exfalso. destruct q; simpl in *; try done.
      + destruct Hq as [?|(Hl & _ & _)]; [done|]. by rewrite Hl in Hts.
      + destruct Hq as [?|(_ & ? & _)]; done.
      + destruct Hq as [?|(_ & _ & ?)]; done. }
  destruct (lock st) eqn:Hl.
  - destruct Hlock as (i0 & p0 & Hi0 & Hg0 & _).
    eapply (Hmove i0 p0); [done|by left].
  - eapply (Hmove i p); [done|]. right. split; [done|]. split; [|done].
    unfold compose in Hp. by destruct (returned p).
Qed.

End same_canonical_string.

Lemma sum_list_insert {A} (f : A -> nat) (l : list A) i x y :
  l !! i = Some x ->
  sum_list (f <$> <[i := y]> l) + f x = sum_list (f <$> l) + f y.
Proof.
  revert i. induction l as [|a l IH]; intros [|i]; csimpl; try done.
  - intros [= ->]. lia.
  - intros H. specialize (IH i H). lia.
Qed.

(** Every step executes one statement of one thread. *)
Lemma step_work st st' : step st st' -> work st' < work st.
Proof.
  intros [st1 i p p' l' m' Hi Hts]. unfold work. simpl.
  pose proof (sum_list_insert remaining (threads st1) i p p' Hi) as Hsum.
  assert (remaining p' < remaining p); [|lia].
  destruct p; simpl in Hts; try done.
  - injection Hts as <- _ _. destruct (bind _ _) as [[? ?]|?]; simpl; lia.
  - destruct (lock st1); [done|]. injection Hts as <- _ _. simpl. lia.
  - injection Hts as <- _ _. case_bool_decide; simpl; lia.
  - injection Hts as <- _ _. simpl. lia.
  - injection Hts as <- _ _. destruct (map_find _ _); simpl; lia.
Qed.

Lemma NoDup_keys_lookup (m : TypeStrToProtoMap) k h h' v v' :
  NoDup (m.*1) -> m !! h = Some (k, v) -> m !! h' = Some (k, v') -> h = h'.
Proof.
  intros Hnd H1 H2. apply (NoDup_lookup (m.*1) h h' k Hnd).
  - by rewrite list_lookup_fmap, H1.
  - by rewrite list_lookup_fmap, H2.
Qed.

(** What a schedule executes is an interleaving. *)
Lemma run_reachable schedule : forall st, rtc step st (run st schedule).
Proof.
  induction schedule as [|i schedule IH]; intros st; simpl; [done|].
  eapply rtc_trans; [|apply IH].
  unfold schedule_step.
  destruct (threads st !! i) as [p|] eqn:Hi; [|done].
  destruct (thread_step p (lock st) (table st)) as [[[p' l'] m']|] eqn:Hts; [|done].
  apply rtc_once. by eapply step_thread.
Qed.

End ConcurrentFacts.

(** * The properties of the specification *)

Import StringRange StringRangeInv StringRangeFacts CaptureFacts.
Import RegistryFacts CodecFacts NameFacts InternerFacts.
Import Concurrent ConcurrentFacts.

(** C1.  Two strings that parse and format to the same canonical string [c]
    intern to the same handle: the first call returns the address [h] of the
    node of [c], and the second call returns [h] again, whatever was interned
    in between.  The first call appends one node when [c] was not yet in the
    table and none otherwise; the second call appends none. *)
Theorem ToType_str_same_handle (s1 s2 c : string) (m : TypeStrToProtoMap) :
  canonical s1 = Ok c ->
  canonical s2 = Ok c ->
  exists h m1,
    ToType_str s1 m = Ok (h, m1) /\
    (exists v, m1 !! h = Some (c, v)) /\
    (match map_find c m with
     | Some _ => m1 = m
     | None => exists v, m1 = m ++ [(c, v)]
     end) /\
    (forall later, ToType_str s2 (m1 ++ later) = Ok (h, m1 ++ later)).
Proof.
  intros (t1 & Hp1 & Hf1)%bind_Ok (t2 & Hp2 & Hf2)%bind_Ok.
  unfold ToType_str. rewrite Hp1, Hp2. cbn [bind].
  rewrite (ToType_spec _ _ _ Hf1).
  destruct (map_find c m) as [h|] eqn:Hfind.
  - exists h, m. split; [done|]. split; [by apply map_find_Some|].
    split; [done|]. intros later.
    rewrite (ToType_spec _ _ _ Hf2). by rewrite (map_find_app_l _ _ _ _ Hfind).
  - exists (length m), (m ++ [(c, t1)]). split; [done|].
    pose proof (map_find_new c t1 m Hfind) as Hnew.
    split; [by apply map_find_Some|]. split; [by exists t1|].
    intros later. rewrite (ToType_spec _ _ _ Hf2).
    by rewrite (map_find_app_l _ _ _ _ Hnew).
Qed.

Lemma ToType_str_same_handle_witness :
  canonical " tensor( float ) " = Ok "tensor(float)" /\
  canonical "tensor(float)" = Ok "tensor(float)" /\
  exists h m1,
    ToType_str " tensor( float ) " [] = Ok (h, m1) /\
    (exists v, m1 !! h = Some ("tensor(float)", v)) /\
    (exists v, m1 = [] ++ [("tensor(float)", v)]) /\
    (forall later, ToType_str "tensor(float)" (m1 ++ later) = Ok (h, m1 ++ later)).
Proof.
  assert (H1 : canonical " tensor( float ) " = Ok "tensor(float)")
    by by_evaluation.
  assert (H2 : canonical "tensor(float)" = Ok "tensor(float)")
    by by_evaluation.
  split; [exact H1|]. split; [exact H2|].
  exact (ToType_str_same_handle " tensor( float ) " "tensor(float)"
           "tensor(float)" [] H1 H2).
Defined.

(** C2.  For every canonical element name [E] of the registry, parsing [E]
    and formatting the result with empty decorations gives [E] back, and
    likewise for "tensor(" + [E] + ")". *)
Theorem roundtrip_canonical_names (E : string) :
  IsValidDataTypeString E = true ->
  canonical E = Ok E /\
  canonical ("tensor(" +:+ E +:+ ")") = Ok ("tensor(" +:+ E +:+ ")").
Proof.
  intros H%IsValidDataTypeString_names. revert E H. apply Forall_forall.
  by_evaluation.
Qed.

Lemma roundtrip_canonical_names_witness :
  IsValidDataTypeString "complext64" = true /\
  canonical "complext64" = Ok "complext64" /\
  canonical "tensor(complext64)" = Ok "tensor(complext64)".
Proof.
  split; [by_evaluation|].
  apply (roundtrip_canonical_names "complext64"). by_evaluation.
Defined.

(** C3.  "float" parses to a tensor descriptor whose shape is present and has
    no dimension, "tensor(float)" to one with no shape at all; both carry the
    element type float and the two results differ. *)
Theorem scalar_and_tensor_are_distinct :
  FromString "float"
    = Ok (kTensorType {| elem_type := TensorProto_DataType_FLOAT;
                         shape := Some {| dim := [] |} |}) /\
  FromString "tensor(float)"
    = Ok (kTensorType {| elem_type := TensorProto_DataType_FLOAT;
                         shape := None |}) /\
  FromString "float" <> FromString "tensor(float)".
Proof.
  assert (H1 : FromString "float"
    = Ok (kTensorType {| elem_type := TensorProto_DataType_FLOAT;
                         shape := Some {| dim := [] |} |})) by by_evaluation.
  assert (H2 : FromString "tensor(float)"
    = Ok (kTensorType {| elem_type := TensorProto_DataType_FLOAT;
                         shape := None |})) by by_evaluation.
  split; [done|]. split; [done|]. rewrite H1, H2. discriminate.
Qed.

(** C4.  When the trimmed input, unwrapped if it starts with "tensor", is not
    in the registry's set of valid names, [FromString] stops at the assertion
    of [FromDataTypeString], the failure the specification names
    [InvalidTypeString], and produces no descriptor. *)
Theorem FromString_rejects (type_str : string) :
  IsValidDataTypeString (element_text type_str) = false ->
  FromString type_str = Err InvalidTypeString.
Proof.
  intros H. rewrite FromString_spec. unfold FromDataTypeString. by rewrite H.
Qed.

Lemma FromString_rejects_witness :
  IsValidDataTypeString (element_text "tensor(notatype)") = false /\
  FromString "tensor(notatype)" = Err InvalidTypeString.
Proof.
  split; [by_evaluation|].
  apply (FromString_rejects "tensor(notatype)"). by_evaluation.
Defined.

Example FromString_notatype :
  element_text "notatype" = "notatype" /\
  FromString "notatype" = Err InvalidTypeString.
Proof. split; by_evaluation. Qed.



(** C6.  [ParensWhitespaceStrip] is the five strips in their order, each run
    whether or not the one before removed anything: leading whitespace, one
    leading "(", whitespace at both ends, one trailing ")", trailing
    whitespace.  On a range that reads [ws ( ws e ws ) ws], every part
    optional, it leaves exactly the inner text [e]. *)
Theorem ParensWhitespaceStrip_unwraps (r : StringRange.t) :
  inbounds r ->
  ParensWhitespaceStrip r
    = (RStrip (RStrip_range (of_cstr ")")
         (LAndRStrip (LStrip_range (of_cstr "(") (LStrip r).2).2).2).2).2 /\
  chars (ParensWhitespaceStrip r)
    = strip_right_ws (strip_suffix [")"%char]
        (strip_both_ws (strip_prefix ["("%char] (strip_left_ws (chars r))))) /\
  (forall ws0 lp ws1 e ws2 rp ws3,
     all_space ws0 -> all_space ws1 -> all_space ws2 -> all_space ws3 ->
     lp = [] \/ lp = ["("%char] ->
     rp = [] \/ rp = [")"%char] ->
     (forall c, head e = Some c ->
                isspace c = false /\ (lp = [] -> c <> "("%char)) ->
     (forall c, last e = Some c ->
                isspace c = false /\ (rp = [] -> c <> ")"%char)) ->
     chars r = ws0 ++ lp ++ ws1 ++ e ++ ws2 ++ rp ++ ws3 ->
     chars (ParensWhitespaceStrip r) = e).
Proof.
  intros Hr. split; [done|]. split; [by apply ParensWhitespaceStrip_chars|].
  intros ws0 lp ws1 e ws2 rp ws3 H0 H1 H2 H3 Hlp Hrp Hhd Hlt Hc.
  rewrite ParensWhitespaceStrip_chars, Hc by done.
  by apply strip_parens_ws_form.
Qed.

Lemma ParensWhitespaceStrip_unwraps_witness :
  inbounds (of_std_string "( int32 )") /\
  to_string (ParensWhitespaceStrip (of_std_string "( int32 )")) = "int32".
Proof.
  split; [apply of_std_string_inbounds|].
  destruct (ParensWhitespaceStrip_unwraps (of_std_string "( int32 )")
              (of_std_string_inbounds _)) as (_ & _ & H).
  unfold to_string.
  rewrite (H [] ["("%char] [" "%char] (list_ascii_of_string "int32")
             [" "%char] [")"%char] []); [done|..].
  - constructor.
  - by repeat constructor.
  - by repeat constructor.
  - constructor.
  - by right.
  - by right.
  - intros c [= <-]. split; [done|intros [=]].
  - intros c [= <-]. split; [done|intros [=]].
  - by_evaluation.
Defined.

(** C7.  After construction the two tables are inverse to each other, the set
    of valid names is exactly the fifteen canonical names (with the
    "complext" spellings), it is the set of keys of the name table, both
    tables have fifteen entries, and none of this depends on the order in
    which the loop of the constructor visits the name table. *)
Theorem registry_bijection :
  let w := TypesWrapper.GetTypesWrapper in
  (forall n c,
     TypesWrapper.TypeStrToTensorDataType w !! n = Some c <->
     TypesWrapper.TensorDataTypeToTypeStr w !! c = Some n) /\
  (forall n,
     n ∈ TypesWrapper.GetAllowedDataTypes w <->
     n ∈ ["float"; "float16"; "double"; "int8"; "int16"; "int32"; "int64";
          "uint8"; "uint16"; "uint32"; "uint64"; "complext64"; "complext128";
          "string"; "bool"]) /\
  (forall n,
     n ∈ TypesWrapper.GetAllowedDataTypes w <->
     is_Some (TypesWrapper.TypeStrToTensorDataType w !! n)) /\
  size (TypesWrapper.TypeStrToTensorDataType w) = 15 /\
  size (TypesWrapper.TensorDataTypeToTypeStr w) = 15 /\
  (forall order,
     order ≡ₚ map_to_list (TypesWrapper.TypeStrToTensorDataType w) ->
     TypesWrapper.construct_in_order order = w).
Proof.
  intros w. subst w.
  unfold TypesWrapper.GetAllowedDataTypes, TypesWrapper.TypeStrToTensorDataType,
    TypesWrapper.TensorDataTypeToTypeStr.
  assert (Hallowed : forall n,
    n ∈ TypesWrapper.allowed_data_types_ TypesWrapper.GetTypesWrapper <-> n ∈ names).
  { intros n. rewrite allowed_names. apply elem_of_list_to_set. }
  split; [|split; [|split; [|split; [|split]]]].
  - intros n c. by rewrite name_table, first_table_lookup, code_table_lookup.
  - exact Hallowed.
  - intros n. rewrite Hallowed, name_table. unfold names.
    rewrite list_elem_of_fmap. split.
    + intros ([n' c] & -> & Hin). exists c. by apply first_table_lookup.
    + intros [c Hc]. exists (n, c). split; [done|]. by apply first_table_lookup.
  - by_evaluation.
  - by_evaluation.
  - intros order Ho. rewrite name_table in Ho.
    by apply construct_order_irrelevant.
Qed.

Lemma registry_bijection_witness :
  TypesWrapper.construct_in_order (reverse (map_to_list first_table))
    = TypesWrapper.GetTypesWrapper.
Proof.
  destruct registry_bijection as (_ & _ & _ & _ & _ & H).
  apply H. unfold TypesWrapper.TypeStrToTensorDataType. rewrite name_table.
  apply reverse_Permutation.
Defined.

(** C8.  After [RestartCapture], [LStrip("tensor")] and [LStrip()] on
    "tensor (float)" the range has given up the seven characters "tensor "
    at its front, but [GetCaptured] returns the six characters "tensor":
    the constructor it goes through strips the whitespace that was consumed
    (in general, see [GetCaptured_after_strips]). *)
Theorem GetCaptured_loses_whitespace :
  let r0 := of_std_string "tensor (float)" in
  let r := apply_ops (RestartCapture r0) [OpLStrip_range (of_cstr "tensor"); OpLStrip] in
  to_string r0 = "tensor (float)" /\
  to_string r = "(float)" /\
  string_of_list_ascii (take (data_ r - data_ r0) (chars r0)) = "tensor " /\
  to_string (GetCaptured r) = "tensor".
Proof. repeat split; by_evaluation. Qed.

(** C9.  In every state that threads can reach, in any interleaving, when
    each interns a string with the same canonical string: all threads that
    have returned hold the same handle;
    that handle is the address of the only node of the table whose key is the
    canonical string; a thread between the look-up and its return holds the
    lock and is the only one there; no thread stops at an assertion; some
    thread can move until all have returned, and each step brings the end
    nearer. *)
Theorem concurrent_ToType_one_handle
    (type_strs : list string) (typeStr : string) (m0 : TypeStrToProtoMap)
    (st : state) :
  Forall (fun s => canonical s = Ok typeStr) type_strs ->
  NoDup (m0.*1) ->
  rtc step (init type_strs m0) st ->
  (forall i j h1 h2,
     threads st !! i = Some (Returned h1) ->
     threads st !! j = Some (Returned h2) -> h1 = h2) /\
  (forall i h,
     threads st !! i = Some (Returned h) ->
     (exists v, table st !! h = Some (typeStr, v)) /\
     (forall h' v', table st !! h' = Some (typeStr, v') -> h' = h)) /\
  (forall i p,
     threads st !! i = Some p -> in_guard p = true ->
     lock st = true /\
     (forall j q, threads st !! j = Some q -> in_guard q = true -> j = i)) /\
  (forall i e, threads st !! i <> Some (Stopped e)) /\
  ((forall i p, threads st !! i = Some p -> returned p = true) \/
   (exists st', step st st')) /\
  (forall st', step st st' -> work st' < work st).
Proof.
  intros Hall Hnd Hreach.
  pose proof (inv_reachable typeStr m0 type_strs st Hall Hreach) as Hinv.
  pose proof Hinv as [Hpcs Hlock Htab].
  assert (Hkeys : NoDup ((table st).*1)).
  { destruct Htab as [-> | [Hnone [type ->]]]; [done|].
    rewrite fmap_app. simpl. apply NoDup_app. split; [done|].
    split; [|apply NoDup_singleton].
    intros k Hk ->%list_elem_of_singleton. by apply map_find_None in Hnone. }
  split; [|split; [|split; [|split; [|split]]]].
  - intros i j h1 h2 Hi Hj.
    pose proof (Hpcs i _ Hi) as H1. pose proof (Hpcs j _ Hj) as H2.
    simpl in H1, H2. congruence.
  - intros i h Hi. pose proof (Hpcs i _ Hi) as H1. simpl in H1.
    split; [by apply map_find_Some|].
    intros h' v' Hh'. apply map_find_Some in H1 as [v Hv].
    by eapply NoDup_keys_lookup.
  - intros i p Hi Hg. destruct (lock st).
    + split; [done|]. intros j q Hj Hq.
      destruct Hlock as (i0 & p0 & _ & _ & Huniq).
      rewrite (Huniq j q Hj Hq). symmetry. by eapply Huniq.
    + by rewrite (Hlock i p Hi) in Hg.
  - intros i e Hi. by apply (Hpcs i _ Hi).
  - by eapply inv_progress.
  - apply step_work.
Qed.

Lemma concurrent_ToType_one_handle_witness :
  exists st,
    rtc step (init ["tensor(double)"; " tensor ( double ) "] []) st /\
    threads st = [Returned 0; Returned 0] /\
    (table st).*1 = ["tensor(double)"] /\
    (forall i j h1 h2,
       threads st !! i = Some (Returned h1) ->
       threads st !! j = Some (Returned h2) -> h1 = h2).
Proof.
  exists (run (init ["tensor(double)"; " tensor ( double ) "] [])
              [0; 1; 1; 0; 1; 1; 1; 0; 0; 0]).
  split; [apply run_reachable|].
  split; [by_evaluation|]. split; [by_evaluation|].
  apply (concurrent_ToType_one_handle
           ["tensor(double)"; " tensor ( double ) "] "tensor(double)" []).
  - by_evaluation.
  - constructor.
  - apply run_reachable.
Defined.

(** C10.  For every valid element name [E], the input "tensor", then an
    optional "(", then [E], then an optional ")", with any whitespace around
    each part, parses to the same descriptor as "tensor(" + [E] + ")": the
    element type that the registry assigns to [E], which is the one
    [FromDataTypeString] returns for it, and no shape.  So "tensor E",
    "tensor(E", "tensorE)" and "tensorE" are all accepted. *)
Theorem FromString_optional_parentheses (E w0 w1 w2 w3 w4 lp rp : string) :
  IsValidDataTypeString E = true ->
  space_string w0 -> space_string w1 -> space_string w2 ->
  space_string w3 -> space_string w4 ->
  lp = "" \/ lp = "(" ->
  rp = "" \/ rp = ")" ->
  exists e,
    (E, e) ∈ TypesWrapper.assignments /\
    FromDataTypeString E = Ok e /\
    FromString ("tensor(" +:+ E +:+ ")")
      = Ok (kTensorType {| elem_type := e; shape := None |}) /\
    FromString (w0 +:+ "tensor" +:+ w1 +:+ lp +:+ w2 +:+ E +:+ w3 +:+ rp +:+ w4)
      = FromString ("tensor(" +:+ E +:+ ")").
Proof.
  intros HE.
  assert (Hgen : forall w0 w1 w2 w3 w4 lp rp,
    space_string w0 -> space_string w1 -> space_string w2 ->
    space_string w3 -> space_string w4 ->
    lp = "" \/ lp = "(" -> rp = "" \/ rp = ")" ->
    FromString (w0 +:+ "tensor" +:+ w1 +:+ lp +:+ w2 +:+ E +:+ w3 +:+ rp +:+ w4)
      = let* e := FromDataTypeString E in
        Ok (kTensorType {| elem_type := e; shape := None |})).
  { clear w0 w1 w2 w3 w4 lp rp.
    intros w0 w1 w2 w3 w4 lp rp H0 H1 H2 H3 H4 Hlp Hrp.
    destruct (plain_edges_spec _ (names_plain_edges E HE))
      as (c & d & e' & Hc & He & Hcs & Hcp & Hds & Hdp).
    rewrite FromString_spec. unfold element_text.
    rewrite !list_ascii_of_string_app.
    remember (list_ascii_of_string "tensor") as T eqn:HT.
    assert (HTh : head T = Some "t"%char) by by subst T.
    assert (HTl : length T = 6) by by subst T.
    clear HT.
    set (W1 := list_ascii_of_string w1). set (W2 := list_ascii_of_string w2).
    set (W3 := list_ascii_of_string w3). set (W4 := list_ascii_of_string w4).
    set (LP := list_ascii_of_string lp).
    assert (Htrim : exists W3',
      all_space W3' /\
      strip_both_ws (list_ascii_of_string w0 ++ T ++ W1 ++ LP ++ W2 ++
                     list_ascii_of_string E ++ W3 ++
                     list_ascii_of_string rp ++ W4)
      = T ++ W1 ++ LP ++ W2 ++ list_ascii_of_string E ++ W3' ++
        list_ascii_of_string rp ++ []).
    { unfold strip_both_ws. rewrite strip_left_ws_app_space by done.
      rewrite (strip_left_ws_head T _ "t"%char) by done.
      rewrite He.
      destruct Hrp as [-> | ->].
      - exists []. split; [constructor|].
        change (list_ascii_of_string "") with (@nil ascii).
        replace (T ++ W1 ++ LP ++ W2 ++ (e' ++ [d]) ++ W3 ++ [] ++ W4)
          with ((T ++ W1 ++ LP ++ W2 ++ e') ++ d :: (W3 ++ W4))
          by (by rewrite <- !app_assoc).
        rewrite (strip_right_ws_snoc_space d _ (W3 ++ W4) Hds
                   (all_space_app _ _ H3 H4)).
        by rewrite <- !app_assoc, !app_nil_r.
      - exists W3. split; [done|].
        change (list_ascii_of_string ")") with [")"%char].
        replace (T ++ W1 ++ LP ++ W2 ++ (e' ++ [d]) ++ W3 ++ [")"%char] ++ W4)
          with ((T ++ W1 ++ LP ++ W2 ++ (e' ++ [d]) ++ W3) ++ ")"%char :: W4)
          by (by rewrite <- !app_assoc).
        rewrite (strip_right_ws_snoc_space ")"%char _ W4 eq_refl H4).
        by rewrite <- !app_assoc, !app_nil_r. }
    destruct Htrim as (W3' & HW3 & ->).
    rewrite bool_decide_eq_true_2 by by apply prefix_app_r.
    rewrite <- HTl, drop_app_length.
    rewrite (strip_parens_ws_form W1 LP W2 (list_ascii_of_string E) W3'
               (list_ascii_of_string rp) []).
    - by rewrite string_of_list_ascii_of_string.
    - exact H1.
    - exact H2.
    - exact HW3.
    - constructor.
    - subst LP. destruct Hlp as [-> | ->]; [by left|by right].
    - destruct Hrp as [-> | ->]; [by left|by right].
    - intros c' Hc'. rewrite Hc in Hc'. injection Hc' as <-.
      split; [exact Hcs|intros _; exact Hcp].
    - intros d' Hd'. rewrite He, last_snoc in Hd'. injection Hd' as <-.
      split; [exact Hds|intros _; exact Hdp]. }
  pose proof (proj1 (IsValidDataTypeString_names E) HE) as Hn.
  apply list_elem_of_fmap in Hn as ([n e] & Hn & Hin). cbn [fst] in Hn. subst n.
  exists e.
  assert (Hv : FromDataTypeString E = Ok e).
  { pose proof (proj2 (first_table_lookup E e) Hin) as Hl.
    unfold FromDataTypeString. rewrite HE. cbn [assert bind].
    unfold map_index, TypesWrapper.TypeStrToTensorDataType.
    rewrite name_table, Hl. reflexivity. }
  split; [exact Hin|]. split; [exact Hv|].
  assert (Hs : space_string "") by constructor.
  pose proof (Hgen "" "" "" "" "" "(" ")" Hs Hs Hs Hs Hs (or_intror eq_refl)
                (or_intror eq_refl)) as Hcanon.
  change ("" +:+ "tensor" +:+ "" +:+ "(" +:+ "" +:+ E +:+ "" +:+ ")" +:+ "")
    with ("tensor(" +:+ E +:+ ")") in Hcanon.
  rewrite Hv in Hcanon. cbn [bind] in Hcanon.
  split; [exact Hcanon|]. rewrite Hcanon, Hgen, Hv by done. reflexivity.
Qed.

Lemma FromString_optional_parentheses_witness :
  IsValidDataTypeString "int64" = true /\
  (exists e,
     ("int64", e) ∈ TypesWrapper.assignments /\
     FromDataTypeString "int64" = Ok e /\
     FromString "tensor(int64)"
       = Ok (kTensorType {| elem_type := e; shape := None |}) /\
     FromString "tensor int64" = FromString "tensor(int64)") /\
  (exists e,
     ("int64", e) ∈ TypesWrapper.assignments /\
     FromDataTypeString "int64" = Ok e /\
     FromString "tensor(int64)"
       = Ok (kTensorType {| elem_type := e; shape := None |}) /\
     FromString "tensor(int64" = FromString "tensor(int64)") /\
  (exists e,
     ("int64", e) ∈ TypesWrapper.assignments /\
     FromDataTypeString "int64" = Ok e /\
     FromString "tensor(int64)"
       = Ok (kTensorType {| elem_type := e; shape := None |}) /\
     FromString "tensorint64)" = FromString "tensor(int64)") /\
  FromString "tensor(int64)"
    = Ok (kTensorType {| elem_type := TensorProto_DataType_INT64; shape := None |}).
Proof.
  assert (Hv : IsValidDataTypeString "int64" = true) by by_evaluation.
  assert (Hs : space_string "") by constructor.
  assert (Hs1 : space_string " ") by (by repeat constructor).
  split; [exact Hv|]. split; [|split; [|split]].
  - exact (FromString_optional_parentheses "int64" "" " " "" "" "" "" ""
             Hv Hs Hs1 Hs Hs Hs (or_introl eq_refl) (or_introl eq_refl)).
  - exact (FromString_optional_parentheses "int64" "" "" "" "" "" "(" ""
             Hv Hs Hs Hs Hs Hs (or_intror eq_refl) (or_introl eq_refl)).
  - exact (FromString_optional_parentheses "int64" "" "" "" "" "" "" ")"
             Hv Hs Hs Hs Hs Hs (or_introl eq_refl) (or_intror eq_refl)).
  - by_evaluation.
Defined.

(** * Further properties of the code *)

(** ** Lemmas *)

Section more_strip_lists.
Implicit Types l w ws : list ascii.

Lemma strip_left_ws_decomp l :
  exists ws, all_space ws /\ l = ws ++ strip_left_ws l.
Proof.
  induction l as [|c l (ws & Hws & IH)]; simpl.
  - exists []. split; [constructor|done].
  - destruct (isspace c) eqn:E.
    + exists (c :: ws). split; [by constructor|]. simpl. by rewrite <- IH.
    + exists []. split; [constructor|done].
Qed.

Lemma strip_right_ws_decomp l :
  exists ws, all_space ws /\ l = strip_right_ws l ++ ws.
Proof.
  destruct (strip_left_ws_decomp (reverse l)) as (ws & Hws & H).
  exists (reverse ws). split; [by apply all_space_reverse|].
  unfold strip_right_ws. rewrite <- reverse_app, <- H. by rewrite reverse_involutive.
Qed.

Lemma strip_left_ws_head_visible l c :
  head (strip_left_ws l) = Some c -> isspace c = false.
Proof.
  induction l as [|d l IH]; simpl; [done|].
  destruct (isspace d) eqn:E; [done|]. simpl. by intros [= <-].
Qed.

Lemma strip_right_ws_last_visible l c :
  last (strip_right_ws l) = Some c -> isspace c = false.
Proof.
  unfold strip_right_ws. rewrite last_reverse. apply strip_left_ws_head_visible.
Qed.

Lemma strip_right_ws_idemp l : strip_right_ws (strip_right_ws l) = strip_right_ws l.
Proof.
  unfold strip_right_ws. by rewrite reverse_involutive, strip_left_ws_idemp.
Qed.

Lemma strip_left_ws_fixed l :
  (forall c, head l = Some c -> isspace c = false) -> strip_left_ws l = l.
Proof.
  destruct l as [|c l]; simpl; [done|]. intros H. by rewrite (H c).
Qed.

Lemma strip_right_ws_fixed l :
  (forall c, last l = Some c -> isspace c = false) -> strip_right_ws l = l.
Proof.
  intros H. unfold strip_right_ws. rewrite strip_left_ws_fixed.
  - apply reverse_involutive.
  - intros c Hc. apply H. by rewrite <- head_reverse.
Qed.

(** Stripping at the back keeps a visible first character. *)
Lemma strip_right_ws_head l c :
  isspace c = false -> head l = Some c -> head (strip_right_ws l) = Some c.
Proof.
  intros Hc Hh. destruct (strip_right_ws_decomp l) as (ws & Hws & H).
  destruct (strip_right_ws l) as [|d p] eqn:E; simpl in *.
  - subst l. destruct ws as [|d ws]; [done|]. simpl in Hh.
    injection Hh as ->. apply Forall_inv in Hws. congruence.
  - rewrite H in Hh. simpl in Hh. done.
Qed.

Lemma strip_both_ws_trimmed l :
  (forall c, head (strip_both_ws l) = Some c -> isspace c = false) /\
  (forall c, last (strip_both_ws l) = Some c -> isspace c = false).
Proof.
  unfold strip_both_ws. split; [|apply strip_right_ws_last_visible].
  intros c Hc.
  destruct (head (strip_left_ws l)) as [d|] eqn:Hd.
  - pose proof (strip_left_ws_head_visible _ _ Hd) as Hds.
    rewrite (strip_right_ws_head _ d Hds Hd) in Hc. by injection Hc as <-.
  - destruct (strip_left_ws l); [done|done].
Qed.

Lemma strip_both_ws_idemp l : strip_both_ws (strip_both_ws l) = strip_both_ws l.
Proof.
  destruct (strip_both_ws_trimmed l) as [Hh Hl].
  unfold strip_both_ws at 1.
  rewrite (strip_left_ws_fixed _ Hh). by apply strip_right_ws_fixed.
Qed.

Lemma strip_both_ws_nil_iff l : strip_both_ws l = [] <-> all_space l.
Proof.
  unfold strip_both_ws. split.
  - intros H. destruct (strip_left_ws_decomp l) as (ws & Hws & Hl).
    destruct (strip_right_ws_decomp (strip_left_ws l)) as (ws' & Hws' & Hr).
    rewrite H in Hr. simpl in Hr. rewrite Hl, Hr. by apply all_space_app.
  - intros H. by rewrite strip_left_ws_all_space.
Qed.

Lemma strip_both_ws_padded w l w' :
  all_space w -> all_space w' -> strip_both_ws (w ++ l ++ w') = strip_both_ws l.
Proof.
  intros Hw Hw'. unfold strip_both_ws. rewrite strip_left_ws_app_space by done.
  induction l as [|c l IH]; simpl.
  - by rewrite strip_left_ws_all_space.
  - destruct (isspace c) eqn:E; [done|].
    exact (strip_right_ws_app_space w' (c :: l) Hw').
Qed.

End more_strip_lists.

Lemma list_ascii_of_string_inj s1 s2 :
  list_ascii_of_string s1 = list_ascii_of_string s2 -> s1 = s2.
Proof.
  intros H. apply (f_equal string_of_list_ascii) in H.
  by rewrite !string_of_list_ascii_of_string in H.
Qed.

Module StringRangeMore.
Import StringRange StringRangeInv StringRangeFacts StringRangeOps.

Lemma chars_lookup r i :
  inbounds r -> i < size_ r -> chars r !! i = index r i.
Proof.
  intros Hb Hi. unfold chars, index.
  by rewrite lookup_take_lt, lookup_drop by done.
Qed.

Lemma LStrip_loop_le b : forall rem ptr, LStrip_loop b ptr rem <= rem.
Proof.
  induction rem as [|rem IH]; intros ptr; simpl; [lia|].
  destruct (b !! ptr) as [c|]; [|lia]. destruct (isspace c); [|lia].
  specialize (IH (S ptr)). lia.
Qed.

Lemma RStrip_loop_le b data : forall rem, RStrip_loop b data rem <= rem.
Proof.
  induction rem as [|rem IH]; simpl; [lia|].
  destruct (b !! (data + rem)) as [c|]; [|lia]. destruct (isspace c); lia.
Qed.

(** The flag of a whitespace strip says whether the loop counted anything. *)
Lemma LStrip_flag r :
  (LStrip r).1 = negb (LStrip_loop (buf r) (data_ r) (size_ r) =? 0).
Proof.
  unfold LStrip, LStrip_size.
  pose proof (LStrip_loop_le (buf r) (size_ r) (data_ r)) as Hle.
  destruct (LStrip_loop (buf r) (data_ r) (size_ r)) as [|n]; [done|].
  apply Nat.leb_le in Hle. by rewrite Hle.
Qed.

Lemma RStrip_flag r :
  (RStrip r).1 = negb (RStrip_loop (buf r) (data_ r) (size_ r) =? 0).
Proof.
  unfold RStrip, RStrip_size.
  pose proof (RStrip_loop_le (buf r) (data_ r) (size_ r)) as Hle.
  destruct (RStrip_loop (buf r) (data_ r) (size_ r)) as [|n]; [done|].
  apply Nat.leb_le in Hle. by rewrite Hle.
Qed.

(** A strip that removes nothing leaves the range as it was. *)
Lemma LStrip_size_0 r : inbounds r -> (LStrip_size 0 r).2 = r.
Proof.
  intros _. unfold LStrip_size. simpl. destruct r. simpl.
  by rewrite !Nat.add_0_r, Nat.sub_0_r.
Qed.

Lemma drop_eq_self {A} (l : list A) n : n <= length l -> drop n l = l -> n = 0.
Proof.
  intros Hn H. apply (f_equal length) in H. rewrite length_drop in H. lia.
Qed.

Lemma take_eq_self {A} (l : list A) n : n <= length l -> take n l = l -> n = length l.
Proof.
  intros Hn H. apply (f_equal length) in H. rewrite length_take in H. lia.
Qed.

(** Whitespace strips: a second one finds nothing. *)
Lemma LStrip_again r : inbounds r -> LStrip (LStrip r).2 = (false, (LStrip r).2).
Proof.
  intros Hb.
  assert (Hb' : inbounds (LStrip r).2)
    by (eapply narrows_inbounds; [apply narrows_LStrip|done]).
  pose proof (chars_LStrip r Hb) as Hc.
  set (r' := (LStrip r).2) in *.
  destruct (LStrip_loop_spec (buf r') (size_ r') (data_ r') Hb') as [Hle Heq].
  fold (chars r') in Heq.
  rewrite Hc, strip_left_ws_idemp, <- Hc in Heq.
  apply drop_eq_self in Heq; [|by rewrite length_chars].
  unfold LStrip. by rewrite Heq.
Qed.

Lemma RStrip_again r : inbounds r -> RStrip (RStrip r).2 = (false, (RStrip r).2).
Proof.
  intros Hb.
  assert (Hb' : inbounds (RStrip r).2)
    by (eapply narrows_inbounds; [apply narrows_RStrip|done]).
  pose proof (chars_RStrip r Hb) as Hc.
  set (r' := (RStrip r).2) in *.
  destruct (RStrip_loop_spec (buf r') (data_ r') (size_ r') Hb') as [Hle Heq].
  fold (chars r') in Heq.
  rewrite Hc, strip_right_ws_idemp, <- Hc in Heq.
  assert (Hz : RStrip_loop (buf r') (data_ r') (size_ r') = 0).
  { unfold chars in Heq at 1.
    assert (take (size_ r' - RStrip_loop (buf r') (data_ r') (size_ r')) (chars r')
            = chars r') as Ht.
    { unfold chars at 1. rewrite take_take, Nat.min_l by lia. exact Heq. }
    apply take_eq_self in Ht; rewrite length_chars in * by done; lia. }
  unfold RStrip. by rewrite Hz.
Qed.

Lemma strip_left_ws_fixed_iff (l : list ascii) :
  strip_left_ws l = l <-> (forall c, head l = Some c -> isspace c = false).
Proof.
  split; [|apply strip_left_ws_fixed].
  intros H c Hc. rewrite <- H in Hc. by eapply strip_left_ws_head_visible.
Qed.

Lemma strip_right_ws_fixed_iff (l : list ascii) :
  strip_right_ws l = l <-> (forall c, last l = Some c -> isspace c = false).
Proof.
  split; [|apply strip_right_ws_fixed].
  intros H c Hc. rewrite <- H in Hc. by eapply strip_right_ws_last_visible.
Qed.

Lemma LStrip_loop_zero r :
  inbounds r ->
  LStrip_loop (buf r) (data_ r) (size_ r) = 0 <-> strip_left_ws (chars r) = chars r.
Proof.
  intros Hb.
  destruct (LStrip_loop_spec (buf r) (size_ r) (data_ r) Hb) as [Hle Heq].
  fold (chars r) in Heq. split.
  - intros Hz. by rewrite Hz in Heq.
  - intros Hf. rewrite Hf in Heq.
    apply drop_eq_self in Heq; [done|by rewrite length_chars].
Qed.

Lemma RStrip_loop_zero r :
  inbounds r ->
  RStrip_loop (buf r) (data_ r) (size_ r) = 0 <-> strip_right_ws (chars r) = chars r.
Proof.
  intros Hb.
  destruct (RStrip_loop_spec (buf r) (data_ r) (size_ r) Hb) as [Hle Heq].
  fold (chars r) in Heq. split.
  - intros Hz. rewrite Hz, Nat.sub_0_r in Heq. by rewrite <- Heq.
  - intros Hf. rewrite Hf in Heq.
    assert (Ht : take (size_ r - RStrip_loop (buf r) (data_ r) (size_ r)) (chars r)
                 = chars r).
    { unfold chars at 1. rewrite take_take, Nat.min_l by lia. exact Heq. }
    apply take_eq_self in Ht; rewrite length_chars in * by done; lia.
Qed.

Lemma LStrip_size_failed n r : (LStrip_size n r).1 = false -> (LStrip_size n r).2 = r.
Proof. unfold LStrip_size. by destruct (n <=? size_ r). Qed.

Lemma RStrip_size_failed n r : (RStrip_size n r).1 = false -> (RStrip_size n r).2 = r.
Proof. unfold RStrip_size. by destruct (n <=? size_ r). Qed.

Lemma LStrip_failed r : (LStrip r).1 = false -> (LStrip r).2 = r.
Proof. unfold LStrip. destruct (0 <? _); [apply LStrip_size_failed|done]. Qed.

Lemma RStrip_failed r : (RStrip r).1 = false -> (RStrip r).2 = r.
Proof. unfold RStrip. destruct (0 <? _); [apply RStrip_size_failed|done]. Qed.

Lemma LStrip_range_failed str r :
  (LStrip_range str r).1 = false -> (LStrip_range str r).2 = r.
Proof.
  unfold LStrip_range. destruct (StartsWith r str); [apply LStrip_size_failed|done].
Qed.

Lemma RStrip_range_failed str r :
  (RStrip_range str r).1 = false -> (RStrip_range str r).2 = r.
Proof.
  unfold RStrip_range. destruct (EndsWith r str); [apply RStrip_size_failed|done].
Qed.

Lemma LAndRStrip_fst r : (LAndRStrip r).1 = (LStrip r).1 || (RStrip (LStrip r).2).1.
Proof. unfold LAndRStrip. by destruct (LStrip r), (RStrip _). Qed.

Lemma LAndRStrip_failed r : (LAndRStrip r).1 = false -> (LAndRStrip r).2 = r.
Proof.
  rewrite LAndRStrip_fst, LAndRStrip_snd. intros [Hl Hr]%orb_false_iff.
  rewrite (LStrip_failed r Hl) in *. by apply RStrip_failed.
Qed.

(** On a range that shows no whitespace at either end, [LAndRStrip()] finds
    nothing to do. *)
Lemma LAndRStrip_trimmed r :
  inbounds r ->
  strip_left_ws (chars r) = chars r -> strip_right_ws (chars r) = chars r ->
  LAndRStrip r = (false, r).
Proof.
  intros Hin Hl Hr.
  assert (HL : LStrip r = (false, r)).
  { assert (Hf : (LStrip r).1 = false)
      by by rewrite LStrip_flag, negb_false_iff, Nat.eqb_eq, (LStrip_loop_zero r Hin).
    pose proof (LStrip_failed r Hf) as H2. destruct (LStrip r). simpl in *.
    by subst. }
  assert (HR : RStrip r = (false, r)).
  { assert (Hf : (RStrip r).1 = false)
      by by rewrite RStrip_flag, negb_false_iff, Nat.eqb_eq, (RStrip_loop_zero r Hin).
    pose proof (RStrip_failed r Hf) as H2. destruct (RStrip r). simpl in *.
    by subst. }
  unfold LAndRStrip. by rewrite HL, HR.
Qed.

(** A whitespace strip returns true exactly when it made the range shorter. *)
Lemma LStrip_flag_size r : (LStrip r).1 = true <-> size_ (LStrip r).2 < size_ r.
Proof.
  unfold LStrip, LStrip_size.
  pose proof (LStrip_loop_le (buf r) (size_ r) (data_ r)) as Hle.
  destruct (LStrip_loop (buf r) (data_ r) (size_ r)) as [|n].
  - simpl. split; [done|lia].
  - apply Nat.leb_le in Hle as Hle'. rewrite Hle'. simpl. split; [lia|done].
Qed.

Lemma RStrip_flag_size r : (RStrip r).1 = true <-> size_ (RStrip r).2 < size_ r.
Proof.
  unfold RStrip, RStrip_size.
  pose proof (RStrip_loop_le (buf r) (data_ r) (size_ r)) as Hle.
  destruct (RStrip_loop (buf r) (data_ r) (size_ r)) as [|n].
  - simpl. split; [done|lia].
  - apply Nat.leb_le in Hle as Hle'. rewrite Hle'. simpl. split; [lia|done].
Qed.

Lemma narrows_size r r' : narrows r r' -> size_ r' <= size_ r.
Proof. intros (_&_&?&?&_). lia. Qed.

(** [Find] walks the range from its front. *)
Lemma Find_loop_spec r ch : forall rem idx,
  inbounds r -> idx + rem = size_ r ->
  match Find_loop r ch idx rem with
  | Some i =>
      idx <= i < size_ r /\ chars r !! i = Some ch /\
      forall j, idx <= j < i -> chars r !! j <> Some ch
  | None => forall j, idx <= j < size_ r -> chars r !! j <> Some ch
  end.
Proof.
  induction rem as [|rem IH]; intros idx Hb Hsz; simpl.
  - intros j Hj. lia.
  - case_bool_decide as Hi.
    + split; [lia|]. split; [by rewrite chars_lookup by (done || lia)|].
      intros j Hj. lia.
    + specialize (IH (S idx) Hb). destruct (Find_loop r ch (S idx) rem) as [i|].
      * destruct IH as (Hi1 & Hi2 & Hi3); [lia|].
        split; [lia|]. split; [done|]. intros j Hj.
        destruct (decide (j = idx)) as [-> | Hne].
        -- by rewrite chars_lookup by (done || lia).
        -- apply Hi3. lia.
      * intros j Hj. destruct (decide (j = idx)) as [-> | Hne].
        -- by rewrite chars_lookup by (done || lia).
        -- apply IH; lia.
Qed.

End StringRangeMore.

Module CodecMore.
Import StringRange RegistryFacts CodecFacts InternerFacts TypesWrapper.

Lemma is_scalar_rank0 t : is_scalar t = true <-> rank0 t.
Proof.
  unfold is_scalar, rank0, has_shape, shape_or_default, dim_size.
  destruct t as [e [[d]|]]; simpl.
  - rewrite Nat.eqb_eq. split.
    + intros H%nil_length_inv. subst d. by eexists.
    + intros (sh & [= <-] & H). simpl in H. by subst d.
  - split; [done|]. by intros (sh & [=] & _).
Qed.

Lemma ToDataTypeString_Ok c n :
  ToDataTypeString c = Ok n <-> (n, c) ∈ assignments.
Proof.
  rewrite <- code_table_lookup. unfold ToDataTypeString, TensorDataTypeToTypeStr.
  destruct (tensor_data_type_to_type_str_ GetTypesWrapper !! c) as [n'|] eqn:E.
  - clear E. rewrite bool_decide_eq_true_2 by by eexists. cbn [assert bind].
    split; intros [= ->]; reflexivity.
  - clear E. rewrite bool_decide_eq_false_2 by by intros [? [=]].
    cbn [assert bind]. split; intros [=].
Qed.

Lemma ToDataTypeString_Err c e :
  ToDataTypeString c = Err e -> e = UnknownElementCode.
Proof.
  unfold ToDataTypeString, TensorDataTypeToTypeStr.
  destruct (tensor_data_type_to_type_str_ GetTypesWrapper !! c) as [n'|] eqn:E.
  - clear E. rewrite bool_decide_eq_true_2 by by eexists. cbn [assert bind].
    intros [=].
  - clear E. rewrite bool_decide_eq_false_2 by by intros [? [=]].
    cbn [assert bind]. by intros [= <-].
Qed.

Lemma FromDataTypeString_Ok n c :
  FromDataTypeString n = Ok c <-> (n, c) ∈ assignments.
Proof.
  unfold FromDataTypeString.
  destruct (IsValidDataTypeString n) eqn:E; cbn [assert bind].
  - apply IsValidDataTypeString_names in E.
    apply list_elem_of_fmap in E as ([n' c'] & -> & Hin). cbn [fst].
    apply first_table_lookup in Hin as Hl.
    unfold map_index, TypeStrToTensorDataType. rewrite name_table, Hl. cbn [fst].
    rewrite <- first_table_lookup, Hl. split; intros [= ->]; reflexivity.
  - split; [intros [=]|]. intros Hin. exfalso.
    assert (Hn : n ∈ names).
    { apply list_elem_of_fmap. exists (n, c). split; [reflexivity|exact Hin]. }
    apply IsValidDataTypeString_names in Hn. rewrite Hn in E. discriminate E.
Qed.

Lemma FromDataTypeString_Err n e :
  FromDataTypeString n = Err e -> e = InvalidTypeString.
Proof.
  unfold FromDataTypeString.
  destruct (IsValidDataTypeString n); cbn [assert bind]; [intros [=]|].
  by intros [= <-].
Qed.

Lemma ToString_tensor t left right name :
  ToDataTypeString (elem_type t) = Ok name ->
  ToString (kTensorType t) left right =
    Ok (if is_scalar t then left +:+ name +:+ right
        else left +:+ "tensor(" +:+ name +:+ ")" +:+ right).
Proof.
  intros H. unfold ToString. fold (is_scalar t). rewrite H.
  by destruct (is_scalar t).
Qed.

Lemma ToString_tensor_Err t left right e :
  ToDataTypeString (elem_type t) = Err e ->
  ToString (kTensorType t) left right = Err e.
Proof.
  intros H. unfold ToString. rewrite H. by destruct (_ && _).
Qed.

(** What [FromString] returns for the names of the registry, bare and
    wrapped. *)
Lemma FromString_names :
  Forall (fun p =>
    FromString p.1
      = Ok (kTensorType {| elem_type := p.2; shape := Some {| dim := [] |} |}) /\
    FromString ("tensor(" +:+ p.1 +:+ ")")
      = Ok (kTensorType {| elem_type := p.2; shape := None |}) /\
    ~ list_ascii_of_string "tensor(" `prefix_of` list_ascii_of_string p.1)
    assignments.
Proof. by_evaluation. Qed.

Lemma FromString_name n c :
  (n, c) ∈ assignments ->
  FromString n
    = Ok (kTensorType {| elem_type := c; shape := Some {| dim := [] |} |}) /\
  FromString ("tensor(" +:+ n +:+ ")")
    = Ok (kTensorType {| elem_type := c; shape := None |}) /\
  ~ list_ascii_of_string "tensor(" `prefix_of` list_ascii_of_string n.
Proof.
  intros H. pose proof FromString_names as HF. rewrite Forall_forall in HF.
  exact (HF (n, c) H).
Qed.

(** What [FromString] returns, read off [FromString_spec]. *)
Lemma FromString_Ok type_str type_proto :
  FromString type_str = Ok type_proto ->
  exists e tensor,
    (element_text type_str, e) ∈ TypesWrapper.assignments /\
    type_proto = kTensorType
      {| elem_type := e;
         shape := if tensor : bool then None else Some {| dim := [] |} |}.
Proof.
  rewrite FromString_spec.
  destruct (FromDataTypeString (element_text type_str)) as [e|e'] eqn:E;
    cbn [bind]; [|intros [=]].
  intros [= <-]. apply FromDataTypeString_Ok in E.
  exists e, (bool_decide (list_ascii_of_string "tensor" `prefix_of`
                           strip_both_ws (list_ascii_of_string type_str))).
  by split.
Qed.

Lemma FromString_Err type_str e :
  FromString type_str = Err e -> e = InvalidTypeString.
Proof.
  rewrite FromString_spec.
  destruct (FromDataTypeString (element_text type_str)) as [c|e'] eqn:E;
    cbn [bind]; [intros [=]|].
  intros [= <-]. by eapply FromDataTypeString_Err.
Qed.

(** What [FromString] returns can be formatted. *)
Lemma FromString_formats type_str type_proto :
  FromString type_str = Ok type_proto ->
  exists c, ToString type_proto "" "" = Ok c.
Proof.
  intros E. destruct (FromString_Ok _ _ E) as (c & tensor & Hin & ->).
  apply ToDataTypeString_Ok in Hin.
  rewrite (ToString_tensor
             {| elem_type := c;
                shape := if tensor then None else Some {| dim := [] |} |}
             "" "" _ Hin).
  eexists. reflexivity.
Qed.

End CodecMore.

Module InternerMore.
Import InternerFacts.

(** The node that [find] returns is the one [ToTypeProto] reads back. *)
Lemma ToTypeProto_found m k (h : DataType) v :
  map_find k m = Some h -> m !! h = Some (k, v) -> ToTypeProto h m = Ok v.
Proof.
  intros Hf Hl. unfold ToTypeProto, DataType in *. rewrite Hl. cbn [fst]. rewrite Hf.
  rewrite bool_decide_eq_true_2 by by eexists. cbn [assert bind mbind option_bind].
  by rewrite Hl.
Qed.

Lemma ToTypeProto_Ok m (h : DataType) v :
  ToTypeProto h m = Ok v ->
  exists k i v0, m !! h = Some (k, v0) /\ map_find k m = Some i /\
                 m !! i = Some (k, v).
Proof.
  unfold ToTypeProto, DataType in *.
  destruct (m !! h) as [[k v0]|] eqn:Hl; [|intros [=]].
  cbn [fst]. destruct (map_find k m) as [i|] eqn:Hf.
  - rewrite bool_decide_eq_true_2 by by eexists.
    cbn [assert bind mbind option_bind].
    destruct (map_find_Some _ _ _ Hf) as [v' Hv']. rewrite Hv'. cbn [snd].
    intros [= <-]. by exists k, i, v0.
  - rewrite bool_decide_eq_false_2 by by intros [? [=]]. cbn [assert bind].
    intros [=].
Qed.

Lemma table_ok_nil : table_ok [].
Proof. split; [constructor|]. by intros k v ?%elem_of_nil. Qed.

Lemma table_ok_snoc m k v :
  table_ok m -> map_find k m = None -> ToString v "" "" = Ok k ->
  table_ok (m ++ [(k, v)]).
Proof.
  intros [Hnd Hval] Hnone Hs. split.
  - rewrite fmap_app. apply NoDup_app. split; [done|].
    split; [|apply NoDup_singleton].
    intros k' Hk' ->%list_elem_of_singleton. by apply map_find_None in Hnone.
  - intros k' v' [Hin|[= -> ->]%list_elem_of_singleton]%elem_of_app; [|done].
    by apply Hval.
Qed.

End InternerMore.

Import StringRangeOps StringRangeMore CodecMore InternerMore.

(** ** String ranges *)

(** X1.  Any sequence of strips keeps the range inside the storage it was
    given and never widens it: the characters afterwards are a contiguous
    part of the characters before, in the same storage. *)
Theorem strips_stay_inside (r : StringRange.t) (ops : list strip_op) :
  inbounds r ->
  inbounds (apply_ops r ops) /\
  buf (apply_ops r ops) = buf r /\
  size_ (apply_ops r ops) <= size_ r /\
  exists front back, chars r = front ++ chars (apply_ops r ops) ++ back.
Proof.
  intros Hb. pose proof (narrows_apply_ops ops r) as Hn.
  split; [by eapply narrows_inbounds|].
  split; [by destruct Hn|]. split; [destruct Hn as (_&_&?&?&_); lia|].
  eexists _, _. by apply narrows_chars.
Qed.

Lemma strips_stay_inside_witness :
  inbounds (of_std_string " ( x ) ") /\
  inbounds (apply_ops (of_std_string " ( x ) ") [OpParensWhitespaceStrip; OpLStrip_size 9]).
Proof.
  split; [apply of_std_string_inbounds|].
  apply (strips_stay_inside (of_std_string " ( x ) ")
           [OpParensWhitespaceStrip; OpLStrip_size 9]).
  apply of_std_string_inbounds.
Defined.

(** X2.  A strip that reports failure has changed nothing: whenever one of
    the seven strips that return a flag returns false, the range is exactly
    as it was, capture included. *)
Theorem failed_strip_changes_nothing (r : StringRange.t) (op : strip_op) :
  op_flag r op = Some false -> apply_op r op = r.
Proof.
  destruct op; simpl; intros [= H];
    auto using LStrip_failed, LStrip_size_failed, LStrip_range_failed,
      RStrip_failed, RStrip_size_failed, RStrip_range_failed, LAndRStrip_failed.
Qed.

Lemma failed_strip_changes_nothing_witness :
  op_flag (of_std_string "abc") (OpLStrip_size 4) = Some false /\
  apply_op (of_std_string "abc") (OpLStrip_size 4) = of_std_string "abc".
Proof.
  split; [by_evaluation|].
  apply (failed_strip_changes_nothing (of_std_string "abc") (OpLStrip_size 4)).
  by_evaluation.
Defined.

(** X3.  [LStrip()] removes exactly the whitespace at the front.  It returns
    true exactly when the range starts with a whitespace character, and a
    second call finds nothing to remove. *)
Theorem LStrip_whitespace (r : StringRange.t) :
  inbounds r ->
  chars (LStrip r).2 = strip_left_ws (chars r) /\
  ((LStrip r).1 = true <->
   exists c, head (chars r) = Some c /\ isspace c = true) /\
  LStrip (LStrip r).2 = (false, (LStrip r).2).
Proof.
  intros Hb. split; [by apply chars_LStrip|]. split; [|by apply LStrip_again].
  rewrite LStrip_flag, negb_true_iff, Nat.eqb_neq, (LStrip_loop_zero r Hb).
  rewrite strip_left_ws_fixed_iff. split.
  - intros Hn. destruct (head (chars r)) as [c|]; [|by destruct Hn].
    exists c. split; [done|]. destruct (isspace c) eqn:E; [done|].
    destruct Hn. by intros c' [= <-].
  - intros (c & Hc & Hs) Hn. specialize (Hn c Hc). congruence.
Qed.

Lemma LStrip_whitespace_witness :
  inbounds (Reset (list_ascii_of_string "  ab ", 0) 5) /\
  to_string (LStrip (Reset (list_ascii_of_string "  ab ", 0) 5)).2 = "ab ".
Proof.
  assert (Hb : inbounds (Reset (list_ascii_of_string "  ab ", 0) 5))
    by (unfold inbounds; simpl; lia).
  split; [exact Hb|].
  unfold to_string.
  destruct (LStrip_whitespace _ Hb) as (-> & _ & _). by_evaluation.
Defined.

(** X4.  [RStrip()] removes exactly the whitespace at the back.  It returns
    true exactly when the range ends with a whitespace character, it leaves
    the front edge and the capture where they were, and a second call finds
    nothing to remove. *)
Theorem RStrip_whitespace (r : StringRange.t) :
  inbounds r ->
  chars (RStrip r).2 = strip_right_ws (chars r) /\
  ((RStrip r).1 = true <->
   exists c, last (chars r) = Some c /\ isspace c = true) /\
  (data_ (RStrip r).2 = data_ r /\ start_ (RStrip r).2 = start_ r /\
   end_ (RStrip r).2 = end_ r) /\
  RStrip (RStrip r).2 = (false, (RStrip r).2).
Proof.
  intros Hb. split; [by apply chars_RStrip|].
  split; [|split; [|by apply RStrip_again]].
  - rewrite RStrip_flag, negb_true_iff, Nat.eqb_neq, (RStrip_loop_zero r Hb).
    rewrite strip_right_ws_fixed_iff. split.
    + intros Hn. destruct (last (chars r)) as [c|]; [|by destruct Hn].
      exists c. split; [done|]. destruct (isspace c) eqn:E; [done|].
      destruct Hn. by intros c' [= <-].
    + intros (c & Hc & Hs) Hn. specialize (Hn c Hc). congruence.
  - unfold RStrip, RStrip_size.
    destruct (0 <? _); [|done]. by destruct (_ <=? _).
Qed.

Lemma RStrip_whitespace_witness :
  inbounds (Reset (list_ascii_of_string "  ab ", 0) 5) /\
  to_string (RStrip (Reset (list_ascii_of_string "  ab ", 0) 5)).2 = "  ab".
Proof.
  assert (Hb : inbounds (Reset (list_ascii_of_string "  ab ", 0) 5))
    by (unfold inbounds; simpl; lia).
  split; [exact Hb|].
  unfold to_string.
  destruct (RStrip_whitespace _ Hb) as (-> & _ & _). by_evaluation.
Defined.

(** X5.  [LStrip(n)] and [RStrip(n)] succeed exactly when [n] is at most the
    size.  Then they remove exactly [n] characters, from the front or from
    the back, and only the left one moves the end of the capture; a larger
    [n] is refused. *)
Theorem counted_strips (r : StringRange.t) (n : nat) :
  inbounds r ->
  ((LStrip_size n r).1 = true <-> n <= size_ r) /\
  ((RStrip_size n r).1 = true <-> n <= size_ r) /\
  (n <= size_ r ->
   chars r = take n (chars r) ++ chars (LStrip_size n r).2 /\
   end_ (LStrip_size n r).2 = end_ r + n /\
   chars r = chars (RStrip_size n r).2 ++ drop (size_ r - n) (chars r) /\
   end_ (RStrip_size n r).2 = end_ r).
Proof.
  intros Hb. split; [|split].
  - unfold LStrip_size. destruct (n <=? size_ r) eqn:E; simpl.
    + apply Nat.leb_le in E. done.
    + apply Nat.leb_gt in E. split; [done|lia].
  - unfold RStrip_size. destruct (n <=? size_ r) eqn:E; simpl.
    + apply Nat.leb_le in E. done.
    + apply Nat.leb_gt in E. split; [done|lia].
  - intros Hn. rewrite chars_LStrip_size, chars_RStrip_size.
    apply Nat.leb_le in Hn as Hn'. rewrite Hn'.
    unfold LStrip_size, RStrip_size. rewrite Hn'. simpl.
    by rewrite !take_drop.
Qed.

Lemma counted_strips_witness :
  inbounds (of_std_string "abcde") /\
  to_string (LStrip_size 2 (of_std_string "abcde")).2 = "cde" /\
  (LStrip_size 6 (of_std_string "abcde")).1 <> true.
Proof.
  pose proof (of_std_string_inbounds "abcde") as Hb.
  destruct (counted_strips (of_std_string "abcde") 6 Hb) as (H6 & _ & _).
  split; [exact Hb|]. split; [by_evaluation|].
  intros Ht. apply H6 in Ht. revert Ht. by_evaluation.
Defined.

(** X6.  [StartsWith] and [EndsWith] compare bytes: the first holds exactly
    when the characters of the argument are a prefix of the characters of the
    range, the second when they are a suffix; an argument longer than the
    range is neither. *)
Theorem StartsWith_EndsWith (r str : StringRange.t) :
  inbounds r -> inbounds str ->
  (StartsWith r str = true <-> chars str `prefix_of` chars r) /\
  (EndsWith r str = true <-> chars str `suffix_of` chars r) /\
  (size_ r < size_ str -> StartsWith r str = false /\ EndsWith r str = false).
Proof.
  intros Hr Hs. rewrite StartsWith_spec, EndsWith_spec by done.
  rewrite !bool_decide_eq_true. split; [done|]. split; [done|].
  intros Hlt. rewrite !bool_decide_eq_false. split.
  - intros [H _]%prefix_take. rewrite !length_chars in H by done. lia.
  - intros [H _]%suffix_drop. rewrite !length_chars in H by done. lia.
Qed.

Lemma StartsWith_EndsWith_witness :
  inbounds (of_std_string "tensor(float)") /\ inbounds (of_cstr "tensor") /\
  StartsWith (of_std_string "tensor(float)") (of_cstr "tensor") = true /\
  EndsWith (of_std_string "tensor(float)") (of_cstr "tensor") = false.
Proof.
  pose proof (of_std_string_inbounds "tensor(float)") as Hr.
  assert (Hs : inbounds (of_cstr "tensor")) by (unfold inbounds; by_evaluation).
  destruct (StartsWith_EndsWith _ _ Hr Hs) as (H1 & _ & _).
  split; [exact Hr|]. split; [exact Hs|]. split; [|by_evaluation].
  apply H1. by_evaluation.
Defined.

(** X7.  [LStrip(str)] returns true exactly when the range starts with the
    characters of [str], and then removes exactly those; [RStrip(str)]
    likewise at the back.  Otherwise the range is unchanged. *)
Theorem prefix_suffix_strips (r str : StringRange.t) :
  inbounds r -> inbounds str ->
  ((LStrip_range str r).1 = true <-> chars str `prefix_of` chars r) /\
  ((LStrip_range str r).1 = true ->
   chars r = chars str ++ chars (LStrip_range str r).2) /\
  ((RStrip_range str r).1 = true <-> chars str `suffix_of` chars r) /\
  ((RStrip_range str r).1 = true ->
   chars r = chars (RStrip_range str r).2 ++ chars str).
Proof.
  intros Hr Hs.
  assert (HL : (LStrip_range str r).1 = StartsWith r str).
  { unfold LStrip_range. destruct (StartsWith r str) eqn:E; [|done].
    unfold StartsWith in E. apply andb_true_iff in E as [E _].
    unfold LStrip_size. by rewrite E. }
  assert (HR : (RStrip_range str r).1 = EndsWith r str).
  { unfold RStrip_range. destruct (EndsWith r str) eqn:E; [|done].
    unfold EndsWith in E. apply andb_true_iff in E as [E _].
    unfold RStrip_size. by rewrite E. }
  rewrite HL, HR, StartsWith_spec, EndsWith_spec by done.
  rewrite !bool_decide_eq_true.
  rewrite chars_LStrip_range, chars_RStrip_range by done.
  unfold strip_prefix, strip_suffix.
  split; [done|]. split; [|split; [done|]].
  - intros Hp. rewrite bool_decide_eq_true_2 by done.
    destruct Hp as [k ->]. by rewrite drop_app_length.
  - intros Hp. rewrite bool_decide_eq_true_2 by done.
    destruct Hp as [k ->]. rewrite length_app.
    replace (length k + length (chars str) - length (chars str))
      with (length k) by lia.
    by rewrite take_app_length.
Qed.

Lemma prefix_suffix_strips_witness :
  inbounds (of_std_string "(int8)") /\ inbounds (of_cstr ")") /\
  (RStrip_range (of_cstr ")") (of_std_string "(int8)")).1 = true /\
  chars (of_std_string "(int8)")
    = chars (RStrip_range (of_cstr ")") (of_std_string "(int8)")).2
      ++ chars (of_cstr ")").
Proof.
  pose proof (of_std_string_inbounds "(int8)") as Hr.
  assert (Hs : inbounds (of_cstr ")")) by (unfold inbounds; by_evaluation).
  assert (Ht : (RStrip_range (of_cstr ")") (of_std_string "(int8)")).1 = true)
    by by_evaluation.
  destruct (prefix_suffix_strips _ _ Hr Hs) as (_ & _ & _ & H).
  split; [exact Hr|]. split; [exact Hs|]. split; [exact Ht|]. exact (H Ht).
Defined.

(** X8.  Every constructor that takes data trims it: the new range shows the
    given characters without the whitespace at their two ends, so it neither
    starts nor ends with whitespace and a further [LAndRStrip()] returns
    false and changes nothing.  Its capture starts where the data started and
    ends at the front edge. *)
Theorem constructors_trim (b : list ascii) (d n : nat) :
  d + n <= length b ->
  let r := of_data_size (b, d) n in
  inbounds r /\
  chars r = strip_both_ws (take n (drop d b)) /\
  (forall c, head (chars r) = Some c -> isspace c = false) /\
  (forall c, last (chars r) = Some c -> isspace c = false) /\
  LAndRStrip r = (false, r) /\
  start_ r = d /\ end_ r = data_ r.
Proof.
  intros Hb r.
  assert (Hin : inbounds r) by by apply of_data_size_inbounds.
  assert (Hc : chars r = strip_both_ws (take n (drop d b)))
    by by apply of_data_size_chars.
  destruct (strip_both_ws_trimmed (take n (drop d b))) as [Hh Hl].
  rewrite <- Hc in Hh, Hl.
  split; [done|]. split; [done|]. split; [done|]. split; [done|]. split.
  - apply LAndRStrip_trimmed; [done|by apply strip_left_ws_fixed|].
    by apply strip_right_ws_fixed.
  - pose proof (narrows_LAndRStrip
                  {| buf := b; data_ := d; size_ := n; start_ := d; end_ := d |})
      as (_ & Hs & _ & _ & He).
    change (LAndRStrip _).2 with r in Hs, He. simpl in Hs, He.
    split; [done|lia].
Qed.

Lemma constructors_trim_witness :
  chars (of_data_size (list_ascii_of_string "a  b c ", 1) 5)
    = list_ascii_of_string "b c".
Proof.
  destruct (constructors_trim (list_ascii_of_string "a  b c ") 1 5)
    as (_ & -> & _); [simpl; lia|]. by_evaluation.
Defined.

(** X9.  [Find] returns the position of the first occurrence of the
    character in the range, counted from the front edge, and the "not found"
    value exactly when the character does not occur in the range. *)
Theorem Find_first_occurrence (r : StringRange.t) (ch : ascii) :
  inbounds r ->
  match Find r ch with
  | Some i =>
      i < size_ r /\ chars r !! i = Some ch /\
      forall j, j < i -> chars r !! j <> Some ch
  | None => ch ∉ chars r
  end.
Proof.
  intros Hb. unfold Find.
  pose proof (Find_loop_spec r ch (size_ r) 0 Hb eq_refl) as H.
  destruct (Find_loop r ch 0 (size_ r)) as [i|].
  - destruct H as (H1 & H2 & H3). split; [lia|]. split; [done|].
    intros j Hj. apply H3. lia.
  - intros [j Hj]%list_elem_of_lookup.
    apply (H j); [|done]. apply lookup_lt_Some in Hj.
    rewrite length_chars in Hj by done. lia.
Qed.

Lemma Find_first_occurrence_witness :
  inbounds (of_std_string "int8,float,") /\
  Find (of_std_string "int8,float,") ","%char = Some 4 /\
  chars (of_std_string "int8,float,") !! 4 = Some ","%char.
Proof.
  pose proof (of_std_string_inbounds "int8,float,") as Hb.
  pose proof (Find_first_occurrence (of_std_string "int8,float,") ","%char Hb) as H.
  assert (Hf : Find (of_std_string "int8,float,") ","%char = Some 4)
    by by_evaluation.
  rewrite Hf in H. split; [exact Hb|]. split; [exact Hf|]. apply H.
Defined.

(** X10.  The accessors read the valid range: [Size()] is the number of its
    characters, [Empty()] holds exactly when there is none, and [operator[]]
    at a position below the size is the character at that position.  So a
    range built from a string is empty exactly when the string holds nothing
    but whitespace. *)
Theorem accessors_read_the_range (r : StringRange.t) (s : string) :
  inbounds r ->
  Size r = length (chars r) /\
  (Empty r = true <-> chars r = []) /\
  (forall idx, idx < Size r -> index r idx = chars r !! idx) /\
  (Empty (of_std_string s) = true <-> space_string s).
Proof.
  intros Hb.
  assert (He : forall r', inbounds r' -> Empty r' = true <-> chars r' = []).
  { intros r' Hb'. unfold Empty. rewrite Nat.eqb_eq, <- (length_chars r' Hb').
    split; [apply nil_length_inv|by intros ->]. }
  split; [symmetry; by apply length_chars|]. split; [by apply He|]. split.
  - intros idx Hi. symmetry. by apply chars_lookup.
  - rewrite (He _ (of_std_string_inbounds s)), of_std_string_chars.
    apply strip_both_ws_nil_iff.
Qed.

Lemma accessors_read_the_range_witness :
  inbounds (of_std_string " bool ") /\
  Size (of_std_string " bool ") = 4 /\
  index (of_std_string " bool ") 0 = Some "b"%char /\
  Empty (of_std_string "   ") = true.
Proof.
  pose proof (of_std_string_inbounds " bool ") as Hb.
  destruct (accessors_read_the_range _ "   " Hb) as (H1 & _ & H3 & H4).
  split; [exact Hb|]. split; [by_evaluation|]. split.
  - rewrite H3; [by_evaluation|]. rewrite H1. apply (bool_decide_unpack _).
    vm_cast_no_check I.
  - apply H4. by repeat constructor.
Defined.

(** X11.  [LAndRStrip()] removes the whitespace at both ends and nothing
    else.  It returns true exactly when that made the range shorter, and a
    second call returns false and changes nothing. *)
Theorem LAndRStrip_whitespace (r : StringRange.t) :
  inbounds r ->
  chars (LAndRStrip r).2 = strip_both_ws (chars r) /\
  ((LAndRStrip r).1 = true <-> size_ (LAndRStrip r).2 < size_ r) /\
  LAndRStrip (LAndRStrip r).2 = (false, (LAndRStrip r).2).
Proof.
  intros Hb. pose proof (LAndRStrip_chars r Hb) as Hc.
  split; [done|]. split.
  - rewrite LAndRStrip_fst, LAndRStrip_snd, orb_true_iff.
    rewrite LStrip_flag_size, RStrip_flag_size.
    pose proof (narrows_size _ _ (narrows_LStrip r)).
    pose proof (narrows_size _ _ (narrows_RStrip (LStrip r).2)).
    lia.
  - destruct (strip_both_ws_trimmed (chars r)) as [Hh Hl].
    rewrite <- Hc in Hh, Hl.
    apply LAndRStrip_trimmed.
    + eapply narrows_inbounds; [apply narrows_LAndRStrip|done].
    + by apply strip_left_ws_fixed.
    + by apply strip_right_ws_fixed.
Qed.

Lemma LAndRStrip_whitespace_witness :
  inbounds (Reset (list_ascii_of_string " ( a) ", 0) 6) /\
  to_string (LAndRStrip (Reset (list_ascii_of_string " ( a) ", 0) 6)).2 = "( a)".
Proof.
  assert (Hb : inbounds (Reset (list_ascii_of_string " ( a) ", 0) 6))
    by (unfold inbounds; simpl; lia).
  split; [exact Hb|]. unfold to_string.
  destruct (LAndRStrip_whitespace _ Hb) as (-> & _ & _). by_evaluation.
Defined.

(** X12.  What [GetCaptured] returns in general: after [RestartCapture] and
    any strips, the capture starts where the front edge was at the restart
    and ends at the present front edge, and [GetCaptured] shows the
    characters in between without the whitespace at their two ends.  Strips
    at the back do not enter into it. *)
Theorem GetCaptured_trimmed_front (r0 : StringRange.t) (ops : list strip_op) :
  inbounds r0 ->
  let r := apply_ops (RestartCapture r0) ops in
  start_ r = data_ r0 /\ end_ r = data_ r /\
  inbounds (GetCaptured r) /\
  chars (GetCaptured r)
    = strip_both_ws (take (data_ r - data_ r0) (chars r0)).
Proof.
  intros Hb r.
  pose proof (narrows_apply_ops ops (RestartCapture r0)) as Hn. fold r in Hn.
  destruct (GetCaptured_after_strips r0 ops Hb) as [_ Hc]. fold r in Hc.
  destruct Hn as (Hbuf & Hstart & Hd & Hs & He). simpl in *.
  split; [done|]. split; [lia|]. split; [|done].
  unfold GetCaptured. apply of_data_size_inbounds.
  rewrite Hbuf, Hstart. unfold inbounds in Hb. lia.
Qed.

Lemma GetCaptured_trimmed_front_witness :
  inbounds (of_std_string "int8 , float") /\
  to_string
    (GetCaptured
       (apply_ops (RestartCapture (of_std_string "int8 , float"))
          [OpLStrip_size 5; OpRStrip_size 1]))
    = "int8".
Proof.
  pose proof (of_std_string_inbounds "int8 , float") as Hb.
  split; [exact Hb|]. unfold to_string.
  destruct (GetCaptured_trimmed_front _
              [OpLStrip_size 5; OpRStrip_size 1] Hb)
    as (_ & _ & _ & ->).
  by_evaluation.
Defined.

(** ** The codec *)

(** X13.  Names and codes convert back and forth: [ToDataTypeString] gives
    the name of a code exactly when [FromDataTypeString] gives that code for
    the name.  A code without a name stops at the assertion of
    [ToDataTypeString], a string that is no name at the one of
    [FromDataTypeString]; nothing else goes wrong. *)
Theorem code_name_round_trip (c : Z) (n : string) :
  (ToDataTypeString c = Ok n <-> FromDataTypeString n = Ok c) /\
  (ToDataTypeString c = Err UnknownElementCode \/
   exists n', ToDataTypeString c = Ok n') /\
  (FromDataTypeString n = Err InvalidTypeString \/
   exists c', FromDataTypeString n = Ok c').
Proof.
  split; [by rewrite ToDataTypeString_Ok, FromDataTypeString_Ok|]. split.
  - destruct (ToDataTypeString c) as [n'|e] eqn:E; [right; by exists n'|].
    left. by rewrite (ToDataTypeString_Err c e E).
  - destruct (FromDataTypeString n) as [c'|e] eqn:E; [right; by exists c'|].
    left. by rewrite (FromDataTypeString_Err n e E).
Qed.

(** X14.  [ToString] fails in two cases only: a descriptor with no value set
    falls into the [default] branch, and a tensor descriptor whose element
    code has no name stops at the assertion of [ToDataTypeString].  Neither
    the decorations nor the shape can make it fail. *)
Theorem ToString_failures (type_proto : TypeProto) (left right : string) (e : error) :
  ToString type_proto left right = Err e <->
  (type_proto = VALUE_NOT_SET /\ e = UnsupportedTypeDescriptor) \/
  (exists t, type_proto = kTensorType t /\ e = UnknownElementCode /\
             forall n, ToDataTypeString (elem_type t) <> Ok n).
Proof.
  destruct type_proto as [|t].
  - simpl. split.
    + intros [= <-]. by left.
    + intros [[_ ->]|(t & [=] & _)]. done.
  - destruct (ToDataTypeString (elem_type t)) as [name|e'] eqn:E.
    + rewrite (ToString_tensor _ _ _ _ E). split; [done|].
      intros [[[=] _]|(t' & [= <-] & _ & H)]. by destruct (H name).
    + rewrite (ToString_tensor_Err _ _ _ _ E).
      pose proof (ToDataTypeString_Err _ _ E) as ->. split.
      * intros [= <-]. right. exists t. split; [done|]. split; [done|].
        intros n Hn. by rewrite E in Hn.
      * intros [[[=] _]|(t' & _ & -> & _)]. done.
Qed.

(** X15.  Formatting a tensor descriptor and parsing the result keeps the
    element type but not the shape: a shape of rank 0 comes back as a shape
    of rank 0, and every other shape, present or not, comes back as no
    shape. *)
Theorem format_then_parse (t : TypeProto_Tensor) (name : string) :
  ToDataTypeString (elem_type t) = Ok name ->
  exists c,
    ToString (kTensorType t) "" "" = Ok c /\
    FromString c
      = Ok (kTensorType
              {| elem_type := elem_type t;
                 shape := if is_scalar t then Some {| dim := [] |} else None |}).
Proof.
  intros Hn. rewrite (ToString_tensor _ _ _ _ Hn).
  apply ToDataTypeString_Ok in Hn.
  destruct (FromString_name _ _ Hn) as (H1 & H2 & _).
  destruct (is_scalar t).
  - exists name. split; [by rewrite append_nil_l, append_nil_r|done].
  - exists ("tensor(" +:+ name +:+ ")"). split; [|done].
    by rewrite append_nil_l, append_nil_r.
Qed.

Lemma format_then_parse_witness :
  ToDataTypeString 7 = Ok "int64" /\
  exists c,
    ToString (kTensorType {| elem_type := 7;
                             shape := Some {| dim := [dim_value 3] |} |}) "" ""
      = Ok c /\
    FromString c = Ok (kTensorType {| elem_type := 7; shape := None |}).
Proof.
  assert (H : ToDataTypeString 7 = Ok "int64") by by_evaluation.
  split; [exact H|].
  exact (format_then_parse
           {| elem_type := 7; shape := Some {| dim := [dim_value 3] |} |}
           "int64" H).
Defined.

(** X16.  A canonical string is a fixed point: if a string normalises to
    [c], then [c] normalises to itself and parses to the same descriptor as
    the string did. *)
Theorem canonical_fixed_point (type_str c : string) :
  canonical type_str = Ok c ->
  canonical c = Ok c /\ FromString c = FromString type_str.
Proof.
  intros (tp & Hp & Hf)%bind_Ok.
  destruct (FromString_Ok _ _ Hp) as (e & tensor & Hin & ->).
  destruct (FromString_name _ _ Hin) as (H1 & H2 & _).
  apply ToDataTypeString_Ok in Hin.
  pose proof (ToString_tensor
                {| elem_type := e;
                   shape := if tensor then None else Some {| dim := [] |} |}
                "" "" _ Hin) as Hfmt.
  rewrite !append_nil_l, !append_nil_r in Hfmt.
  assert (Hc : c = if tensor then "tensor(" +:+ element_text type_str +:+ ")"
                   else element_text type_str).
  { rewrite Hfmt in Hf. destruct tensor; by injection Hf as <-. }
  assert (Hsame : FromString c = FromString type_str).
  { rewrite Hp, Hc. destruct tensor; [exact H2|exact H1]. }
  split; [|exact Hsame]. unfold canonical. rewrite Hsame, Hp. exact Hf.
Qed.

Lemma canonical_fixed_point_witness :
  canonical " tensor ( uint8 )" = Ok "tensor(uint8)" /\
  canonical "tensor(uint8)" = Ok "tensor(uint8)" /\
  FromString "tensor(uint8)" = FromString " tensor ( uint8 )".
Proof.
  assert (H : canonical " tensor ( uint8 )" = Ok "tensor(uint8)") by by_evaluation.
  split; [exact H|]. exact (canonical_fixed_point _ _ H).
Defined.

(** X17.  Whitespace around the input does not matter: [FromString] gives
    the same result, descriptor or failure, for a string and for that string
    between any two runs of whitespace. *)
Theorem FromString_ignores_padding (w type_str w' : string) :
  space_string w -> space_string w' ->
  FromString (w +:+ type_str +:+ w') = FromString type_str.
Proof.
  intros Hw Hw'. rewrite !FromString_spec. unfold element_text.
  rewrite !list_ascii_of_string_app.
  by rewrite (strip_both_ws_padded _ _ _ Hw Hw').
Qed.

Lemma FromString_ignores_padding_witness :
  space_string "  " /\ space_string " " /\
  FromString "  tensor(bool) " = FromString "tensor(bool)".
Proof.
  assert (H1 : space_string "  ") by (by repeat constructor).
  assert (H2 : space_string " ") by (by repeat constructor).
  split; [exact H1|]. split; [exact H2|].
  exact (FromString_ignores_padding "  " "tensor(bool)" " " H1 H2).
Defined.

(** X18.  The canonical string tells descriptors apart by their element type
    and by whether they are scalars, and by nothing else: two tensor
    descriptors format to the same string exactly when they agree on both. *)
Theorem ToString_same_string (t t' : TypeProto_Tensor) (c : string) :
  ToString (kTensorType t) "" "" = Ok c ->
  (ToString (kTensorType t') "" "" = Ok c <->
   elem_type t' = elem_type t /\ is_scalar t' = is_scalar t).
Proof.
  intros Ht.
  destruct (ToDataTypeString (elem_type t)) as [n|e] eqn:En;
    [|rewrite (ToString_tensor_Err _ _ _ _ En) in Ht; discriminate Ht].
  rewrite (ToString_tensor _ _ _ _ En), !append_nil_l, !append_nil_r in Ht.
  split.
  - intros Ht'.
    destruct (ToDataTypeString (elem_type t')) as [n'|e] eqn:En';
      [|rewrite (ToString_tensor_Err _ _ _ _ En') in Ht'; discriminate Ht'].
    rewrite (ToString_tensor _ _ _ _ En'), !append_nil_l, !append_nil_r in Ht'.
    apply ToDataTypeString_Ok in En, En'.
    destruct (FromString_name _ _ En) as (_ & _ & Hn).
    destruct (FromString_name _ _ En') as (_ & _ & Hn').
    assert (Hcase : n' = n /\ is_scalar t' = is_scalar t).
    { destruct (is_scalar t), (is_scalar t');
        injection Ht as <-; injection Ht' as Heq.
      - done.
      - exfalso. apply Hn. rewrite <- Heq, list_ascii_of_string_app.
        by apply prefix_app_r.
      - exfalso. apply Hn'. rewrite Heq, list_ascii_of_string_app.
        by apply prefix_app_r.
      - split; [|done].
        apply (f_equal list_ascii_of_string) in Heq.
        rewrite !list_ascii_of_string_app in Heq.
        apply app_inv_head, app_inv_tail in Heq.
        by apply list_ascii_of_string_inj. }
    destruct Hcase as [-> Hs]. split; [|done].
    apply first_table_lookup in En, En'. rewrite En in En'. by injection En'.
  - intros [He Hs]. rewrite <- He in En.
    by rewrite (ToString_tensor _ _ _ _ En), !append_nil_l, !append_nil_r, Hs.
Qed.

Lemma ToString_same_string_witness :
  ToString (kTensorType {| elem_type := 1; shape := None |}) "" ""
    = Ok "tensor(float)" /\
  ToString (kTensorType {| elem_type := 1;
                           shape := Some {| dim := [dim_param "N"; dim_value 4] |} |})
           "" ""
    = Ok "tensor(float)".
Proof.
  assert (H : ToString (kTensorType {| elem_type := 1; shape := None |}) "" ""
              = Ok "tensor(float)") by by_evaluation.
  split; [exact H|].
  apply (ToString_same_string {| elem_type := 1; shape := None |} _ _ H).
  split; reflexivity.
Defined.

(** X19.  [FromString] can fail in one way only, at the assertion of
    [FromDataTypeString], and exactly when the text it looks up is no valid
    name.  What it returns is always a tensor descriptor of a registered
    element type, with no shape or with a shape of rank 0, so formatting it
    never fails. *)
Theorem FromString_outcomes (type_str : string) :
  match FromString type_str with
  | Ok type_proto =>
      IsValidDataTypeString (element_text type_str) = true /\
      (exists e, type_proto = kTensorType {| elem_type := e; shape := None |} \/
                 type_proto = kTensorType {| elem_type := e;
                                             shape := Some {| dim := [] |} |}) /\
      exists c, canonical type_str = Ok c
  | Err e =>
      e = InvalidTypeString /\
      IsValidDataTypeString (element_text type_str) = false
  end.
Proof.
  destruct (FromString type_str) as [tp|e] eqn:E.
  - destruct (FromString_Ok _ _ E) as (c & tensor & Hin & ->).
    split; [|split].
    + apply IsValidDataTypeString_names, list_elem_of_fmap.
      exists (element_text type_str, c). split; [reflexivity|exact Hin].
    + exists c. destruct tensor; [by left|by right].
    + unfold canonical. rewrite E. cbn [bind]. exact (FromString_formats _ _ E).
  - pose proof (FromString_Err _ _ E) as ->. split; [reflexivity|].
    destruct (IsValidDataTypeString (element_text type_str)) eqn:Hv;
      [|reflexivity].
    exfalso. apply IsValidDataTypeString_names, list_elem_of_fmap in Hv
      as ([n c] & Hn & Hin). simpl in Hn. subst n.
    apply FromDataTypeString_Ok in Hin.
    rewrite FromString_spec, Hin in E. cbn [bind] in E. discriminate E.
Qed.

(** ** The interner *)

(** X20.  Interning keeps the table in order: after any call of [ToType]
    that returns, no key occurs twice and every stored descriptor still
    formats to its key; the nodes that were there are untouched and in
    place, and at most one node has been added behind them. *)
Theorem ToType_keeps_table (type_proto : TypeProto) (m m1 : TypeStrToProtoMap)
    (h : DataType) :
  table_ok m ->
  ToType type_proto m = Ok (h, m1) ->
  table_ok m1 /\ m `prefix_of` m1 /\ length m1 <= S (length m).
Proof.
  intros Hok. destruct (ToString type_proto "" "") as [c|e] eqn:Hs.
  - rewrite (ToType_spec _ _ _ Hs).
    destruct (map_find c m) as [i|] eqn:Hf; intros [= <- <-].
    + split; [done|]. split; [done|lia].
    + split; [by apply table_ok_snoc|]. split; [by apply prefix_app_r|].
      rewrite length_app. simpl. lia.
  - unfold ToType. rewrite Hs. cbn [bind]. intros [=].
Qed.

Lemma ToType_keeps_table_witness :
  table_ok [] /\
  ToType (kTensorType {| elem_type := 9; shape := None |}) []
    = Ok (0, [("tensor(bool)", kTensorType {| elem_type := 9; shape := None |})]) /\
  table_ok [("tensor(bool)", kTensorType {| elem_type := 9; shape := None |})].
Proof.
  assert (H : ToType (kTensorType {| elem_type := 9; shape := None |}) []
    = Ok (0, [("tensor(bool)", kTensorType {| elem_type := 9; shape := None |})]))
    by by_evaluation.
  split; [exact table_ok_nil|]. split; [exact H|].
  exact (proj1 (ToType_keeps_table _ _ _ _ table_ok_nil H)).
Defined.

(** X21.  A handle resolves to the descriptor stored under its string: after
    [ToType] returns a handle, [ToTypeProto] of that handle returns a
    descriptor with the same canonical string.  It is the descriptor just
    passed in when the string was new, and the one interned first
    otherwise, which may have another shape. *)
Theorem ToTypeProto_of_ToType (type_proto : TypeProto) (m m1 : TypeStrToProtoMap)
    (h : DataType) :
  table_ok m ->
  ToType type_proto m = Ok (h, m1) ->
  exists c stored,
    ToString type_proto "" "" = Ok c /\
    ToTypeProto h m1 = Ok stored /\
    ToString stored "" "" = Ok c /\
    (map_find c m = None -> stored = type_proto) /\
    (forall i, map_find c m = Some i -> ToTypeProto i m = Ok stored).
Proof.
  intros Hok. destruct (ToString type_proto "" "") as [c|e] eqn:Hs.
  - rewrite (ToType_spec _ _ _ Hs).
    destruct (map_find c m) as [i|] eqn:Hf; intros [= <- <-].
    + destruct (map_find_Some _ _ _ Hf) as [v Hv].
      exists c, v. split; [done|]. split; [by eapply ToTypeProto_found|].
      split; [|split].
      * apply (proj2 Hok). by eapply list_elem_of_lookup_2.
      * intros Hn. rewrite Hf in Hn. discriminate Hn.
      * intros i' Hi'. rewrite Hf in Hi'. injection Hi' as <-.
        by eapply ToTypeProto_found.
    + exists c, type_proto. split; [done|].
      pose proof (map_find_new c type_proto m Hf) as Hnew.
      split; [|split; [done|split; [done|]]].
      * eapply ToTypeProto_found; [done|].
        by rewrite lookup_app_r, Nat.sub_diag.
      * intros i Hi. rewrite Hf in Hi. discriminate Hi.
  - unfold ToType. rewrite Hs. cbn [bind]. intros [=].
Qed.

Lemma ToTypeProto_of_ToType_witness :
  let first := kTensorType {| elem_type := 1; shape := None |} in
  let second := kTensorType {| elem_type := 1;
                               shape := Some {| dim := [dim_value 2] |} |} in
  table_ok [("tensor(float)", first)] /\
  ToType second [("tensor(float)", first)] = Ok (0, [("tensor(float)", first)]) /\
  ToTypeProto 0 [("tensor(float)", first)] = Ok first /\
  (exists c stored,
     ToString second "" "" = Ok c /\
     ToTypeProto 0 [("tensor(float)", first)] = Ok stored /\
     ToString stored "" "" = Ok c).
Proof.
  intros first second.
  assert (Hok : table_ok [("tensor(float)", first)]).
  { apply (table_ok_snoc [] "tensor(float)" first table_ok_nil); by_evaluation. }
  assert (H : ToType second [("tensor(float)", first)]
              = Ok (0, [("tensor(float)", first)])) by by_evaluation.
  split; [exact Hok|]. split; [exact H|]. split; [by_evaluation|].
  destruct (ToTypeProto_of_ToType second _ _ _ Hok H)
    as (c & stored & Hc & Hres & Hs & _).
  exists c, stored. split; [exact Hc|]. split; [exact Hres|exact Hs].
Defined.

(** X22.  What a handle resolves to never changes: once [ToTypeProto]
    returns a descriptor for a handle, it returns the same descriptor for
    that handle after any further call of [ToType]. *)
Theorem ToTypeProto_stable (h h' : DataType) (stored type_proto : TypeProto)
    (m m1 : TypeStrToProtoMap) :
  ToTypeProto h m = Ok stored ->
  ToType type_proto m = Ok (h', m1) ->
  ToTypeProto h m1 = Ok stored.
Proof.
  intros Hres Hint.
  destruct (ToType_grows _ _ _ _ Hint) as [-> | [node ->]]; [done|].
  destruct (ToTypeProto_Ok _ _ _ Hres) as (k & i & v0 & Hh & Hf & Hi).
  unfold ToTypeProto, DataType in *.
  rewrite (lookup_app_l_Some _ _ _ _ Hh). cbn [fst].
  rewrite (map_find_app_l _ _ _ _ Hf).
  rewrite bool_decide_eq_true_2 by by eexists. cbn [assert bind mbind option_bind].
  by rewrite (lookup_app_l_Some _ _ _ _ Hi).
Qed.

Lemma ToTypeProto_stable_witness :
  let first := kTensorType {| elem_type := 1; shape := None |} in
  let other := kTensorType {| elem_type := 6; shape := Some {| dim := [] |} |} in
  ToTypeProto 0 [("tensor(float)", first)] = Ok first /\
  ToType other [("tensor(float)", first)]
    = Ok (1, [("tensor(float)", first); ("int32", other)]) /\
  ToTypeProto 0 [("tensor(float)", first); ("int32", other)] = Ok first.
Proof.
  intros first other.
  assert (H1 : ToTypeProto 0 [("tensor(float)", first)] = Ok first)
    by by_evaluation.
  assert (H2 : ToType other [("tensor(float)", first)]
               = Ok (1, [("tensor(float)", first); ("int32", other)]))
    by by_evaluation.
  split; [exact H1|]. split; [exact H2|].
  exact (ToTypeProto_stable _ _ _ _ _ _ H1 H2).
Defined.

(** X23.  Handles are equal exactly when the canonical strings are: for two
    calls of [ToType], one after the other, the handles returned coincide if
    and only if the two descriptors format to the same string. *)
Theorem ToType_handles_injective (tp1 tp2 : TypeProto)
    (m m1 m2 : TypeStrToProtoMap) (h1 h2 : DataType) :
  ToType tp1 m = Ok (h1, m1) ->
  ToType tp2 m1 = Ok (h2, m2) ->
  (h1 = h2 <-> ToString tp1 "" "" = ToString tp2 "" "").
Proof.
  intros H1 H2.
  destruct (ToString tp1 "" "") as [c1|e] eqn:Hs1;
    [|unfold ToType in H1; rewrite Hs1 in H1; discriminate H1].
  destruct (ToString tp2 "" "") as [c2|e] eqn:Hs2;
    [|unfold ToType in H2; rewrite Hs2 in H2; discriminate H2].
  rewrite (ToType_spec _ _ _ Hs1) in H1. rewrite (ToType_spec _ _ _ Hs2) in H2.
  assert (Hf1 : map_find c1 m1 = Some h1).
  { destruct (map_find c1 m) as [i|] eqn:Hf; injection H1 as <- <-; [done|].
    by apply map_find_new. }
  clear H1.
  assert (Hf2 : map_find c2 m2 = Some h2).
  { destruct (map_find c2 m1) as [i|] eqn:Hf; injection H2 as <- <-; [done|].
    by apply map_find_new. }
  destruct (map_find_Some _ _ _ Hf1) as [v1 Hv1].
  destruct (map_find_Some _ _ _ Hf2) as [v2 Hv2].
  assert (Hext : exists ext, m2 = m1 ++ ext).
  { destruct (map_find c2 m1); injection H2 as _ <-; [by exists []; rewrite app_nil_r|].
    by eexists. }
  destruct Hext as [ext ->]. split.
  - intros <-. rewrite (lookup_app_l_Some _ _ _ _ Hv1) in Hv2. congruence.
  - intros [= <-]. rewrite (map_find_app_l _ _ _ _ Hf1) in Hf2. congruence.
Qed.

Lemma ToType_handles_injective_witness :
  let a := kTensorType {| elem_type := 1; shape := None |} in
  let b := kTensorType {| elem_type := 1; shape := Some {| dim := [] |} |} in
  ToType a [] = Ok (0, [("tensor(float)", a)]) /\
  ToType b [("tensor(float)", a)] = Ok (1, [("tensor(float)", a); ("float", b)]) /\
  ToString a "" "" <> ToString b "" "".
Proof.
  intros a b.
  assert (H1 : ToType a [] = Ok (0, [("tensor(float)", a)])) by by_evaluation.
  assert (H2 : ToType b [("tensor(float)", a)]
               = Ok (1, [("tensor(float)", a); ("float", b)])) by by_evaluation.
  split; [exact H1|]. split; [exact H2|].
  intros Heq. apply (ToType_handles_injective _ _ _ _ _ _ _ H1 H2) in Heq.
  discriminate Heq.
Defined.

(** X24.  Interning fails only where the codec fails: [ToType] returns
    unless [ToString] stops, with that same failure, and
    [ToType(const std::string&)] returns unless [FromString] stops, which is
    always the failure of an invalid type string. *)
Theorem ToType_failures (type_proto : TypeProto) (type_str : string)
    (m : TypeStrToProtoMap) (e : error) :
  (ToType type_proto m = Err e <-> ToString type_proto "" "" = Err e) /\
  (ToType_str type_str m = Err e <->
   e = InvalidTypeString /\ FromString type_str = Err InvalidTypeString).
Proof.
  split.
  - destruct (ToString type_proto "" "") as [c|e'] eqn:Hs.
    + rewrite (ToType_spec _ _ _ Hs). by destruct (map_find c m).
    + unfold ToType. rewrite Hs. cbn [bind]. split; intros [= ->]; reflexivity.
  - unfold ToType_str.
    destruct (FromString type_str) as [tp|e'] eqn:Hp; cbn [bind].
    + destruct (FromString_formats _ _ Hp) as [c Hc].
      rewrite (ToType_spec _ _ _ Hc).
      split; [by destruct (map_find c m)|]. by intros [_ [=]].
    + pose proof (FromString_Err _ _ Hp) as ->.
      split; [by intros [= <-]|]. by intros [-> _].
Qed.
